(** * SphereConvCube: sprite mask, particle field, frame driver, geometry stage

    A shallow embedding of [src/SphereConvCube.cpp].

    Numbers.  The C++ types [float] and [double] are both read as the real
    numbers [R]: arithmetic is exact, casts between the two are the
    identity, and rounding is not part of the model.  [int] loop counters
    are [nat]; the [short] samples of the alpha texture are [Z].  Where a
    stored integer depends on the rounding - the symmetry and the
    ordering of the mask samples - the computation is modelled a second
    time with every [float] operation rounded ([AlphaMaskRounded]).

    Library code.  [Vec3f::normalize], [HSV] (with its conversion to a mesh
    colour) and [rnd::uniform] belong to AlloLib, whose source is not part
    of the repository.  They are the fields of the class [Framework]; what
    is assumed of [normalize] is stated as hypotheses where it is used. *)

From Stdlib Require Import Reals Lra Lia ZArith.
From stdpp Require Import base list strings.

Open Scope R_scope.

Abbreviation float := R (only parsing).
Abbreviation double := R (only parsing).

#[global] Instance Rlt_decision (a b : R) : Decision (a < b) := Rlt_dec a b.
#[global] Instance Rgt_decision (a b : R) : Decision (a > b) := Rgt_dec a b.

(** [for (int i = 0; i < n; i++) body] over a state threaded through. *)
Definition forLoop {S : Type} (n : nat) (body : nat -> S -> S) (s : S) : S :=
  foldl (fun acc i => body i acc) s (seq 0 n).

(** Conversion of a floating value to an integer type: truncation toward
    zero.  (Values outside the range of [short] are undefined in C++; the
    mask never produces one.) *)
Definition truncate (r : R) : Z :=
  if Rle_dec 0 r then Int_part r else (- Int_part (- r))%Z.

(** [fmod(a, b)]: the remainder of [a / b] with the quotient truncated. *)
Definition fmod (a b : double) : double := a - IZR (truncate (a / b)) * b.

(** ** Vectors *)

Module Vec3f.
Record t := mk { x : float; y : float; z : float }.

Definition zero : t := mk 0 0 0.
(** [operator+=] *)
Definition add (a b : t) : t := mk (x a + x b) (y a + y b) (z a + z b).
(** [operator*=] and [operator*] with a scalar *)
Definition scale (a : t) (k : float) : t := mk (x a * k) (y a * k) (z a * k).
Definition magSqr (a : t) : float := x a * x a + y a * y a + z a * z a.
(** [mag()]: the distance from the origin *)
Definition mag (a : t) : float := sqrt (magSqr a).
End Vec3f.

Record vec2 := Vec2 { v2x : float; v2y : float }.
Record vec4 := Vec4 { v4x : float; v4y : float; v4z : float; v4w : float }.
Record mat4 := Mat4 { row0 : vec4; row1 : vec4; row2 : vec4; row3 : vec4 }.

Definition vec4_add (a b : vec4) : vec4 :=
  Vec4 (v4x a + v4x b) (v4y a + v4y b) (v4z a + v4z b) (v4w a + v4w b).
Definition vec4_sub (a b : vec4) : vec4 :=
  Vec4 (v4x a - v4x b) (v4y a - v4y b) (v4z a - v4z b) (v4w a - v4w b).
Definition vec4_scale (k : float) (a : vec4) : vec4 :=
  Vec4 (k * v4x a) (k * v4y a) (k * v4z a) (k * v4w a).
Definition dot4 (a b : vec4) : float :=
  v4x a * v4x b + v4y a * v4y b + v4z a * v4z b + v4w a * v4w b.
(** GLSL [m * v] *)
Definition mat4_mul (m : mat4) (v : vec4) : vec4 :=
  Vec4 (dot4 (row0 m) v) (dot4 (row1 m) v) (dot4 (row2 m) v) (dot4 (row3 m) v).

(** ** AlloLib *)

Class Framework := {
  Color : Type;
  (** [HSV(h, s, v)] converted to the colour type of the mesh *)
  HSV : float -> float -> float -> Color;
  (** [v.normalize(scale)]: [v] rescaled to the length [scale] *)
  normalize : float -> Vec3f.t -> Vec3f.t;
  Rng : Type;
  (** [rnd::uniform(hi)]: a sample and the next generator state *)
  uniform : float -> Rng -> float * Rng
}.

(** Modelled from the spec: AlloLib's [Vec3f::normalize] is not in the
    repository; the spec reads it as "normalize the particle's current
    position direction, scale it by a small fixed increment distance".
    Colours are kept as their HSV triple and the generator is a stream of
    samples in [[0,1)] scaled by the bound. *)
Definition idealFramework : Framework := {|
  Color := float * float * float;
  HSV := fun h s v => (h, s, v);
  normalize := fun s v => Vec3f.scale v (s / Vec3f.mag v);
  Rng := nat -> float;
  uniform := fun hi g => (hi * g 0%nat, fun n => g (S n))
|}.

(** ** AlphaMask (first part of [AlloApp::onCreate]) *)

Module AlphaMask.
(** [texture.create2D(256, 256, ...)] fixes [width()] and [height()]. *)
Definition Nx : nat := 256.
Definition Ny : nat := 256.

(** [float(i) / (n - 1) * 2 - 1] *)
Definition coord (n i : nat) : float :=
  INR i / IZR (Z.of_nat n - 1) * 2 - 1.

(** The body of the inner loop: the value stored at [alpha[j * nx + i]],
    in exact arithmetic ([AlphaMaskRounded.sample] has the roundings). *)
Definition sample (nx ny i j : nat) : Z :=
  let y := coord ny j in
  let x := coord nx i in
  let m := exp (-13 * (x * x + y * y)) in
  let m := m * (2 ^ 15 - 1) in
  truncate m.

Definition fillRow (nx ny j : nat) (alpha : list Z) : list Z :=
  forLoop nx (fun i a => <[(j * nx + i)%nat := sample nx ny i j]> a) alpha.

Definition fill (nx ny : nat) : list Z :=
  forLoop ny (fillRow nx ny) (replicate (nx * ny) 0%Z).

(** The buffer handed to [texture.submit]. *)
Definition alpha : list Z := fill Nx Ny.
End AlphaMask.

(** ** ParticleField *)

Definition N : nat := 80000.
Definition CLOUD_WIDTH : double := 80.0.

Section App.
Context {F : Framework}.

Record Mesh := { vertices : list Vec3f.t; colors : list Color }.

Definition emptyMesh : Mesh := {| vertices := []; colors := [] |}.
(** [mesh.vertex(v)] and [mesh.color(c)] append to the buffers. *)
Definition addVertex (v : Vec3f.t) (m : Mesh) : Mesh :=
  {| vertices := vertices m ++ [v]; colors := colors m |}.
Definition addColor (c : Color) (m : Mesh) : Mesh :=
  {| vertices := vertices m; colors := colors m ++ [c] |}.
(** [mesh.vertices()[i]] read and written; an index past the end is
    undefined in C++ and here reads zero and writes nothing. *)
Definition vertexAt (m : Mesh) (i : nat) : Vec3f.t :=
  default Vec3f.zero (vertices m !! i).
Definition setVertex (i : nat) (v : Vec3f.t) (m : Mesh) : Mesh :=
  {| vertices := <[i := v]> (vertices m); colors := colors m |}.
Definition setColor (i : nat) (c : Color) (m : Mesh) : Mesh :=
  {| vertices := vertices m; colors := <[i := c]> (colors m) |}.

(** One iteration of the creation loop. *)
Definition createParticle (st : Mesh * Rng) : Mesh * Rng :=
  let '(m, g) := st in
  let '(horizontal, g) := uniform 6.2831853 g in
  let '(vertical, g) := uniform 6.2831853 g in
  let r := 0.01 in
  let m := addVertex
    (Vec3f.scale
       (Vec3f.mk (r * cos horizontal * sin vertical) (r * cos vertical)
          (r * sin horizontal * sin vertical))
       CLOUD_WIDTH) m in
  let m := addColor (HSV 0.7 1.0 1.0) m in
  (m, g).

Definition createMesh (g : Rng) : Mesh * Rng :=
  forLoop N (fun _ => createParticle) (emptyMesh, g).

(** What the creation loop has built after [n] iterations: [n] vertices
    at distance [0.8] and [n] colours, all the initial one. *)
Definition created (n : nat) (m : Mesh) : Prop :=
  length (vertices m) = n /\ length (colors m) = n /\
  Forall (fun p => Vec3f.mag p = 0.8) (vertices m) /\
  Forall (fun c => c = HSV 0.7 1.0 1.0) (colors m).

(** [c > size || c < -size] *)
Definition outside (size c : float) : bool :=
  bool_decide (c > size) || bool_decide (c < - size).

(** The body shared by the three [if] statements. *)
Definition collapse (t : double) (i : nat) (m : Mesh) : Mesh :=
  let m := setVertex i (Vec3f.scale (vertexAt m i) 0.000001) m in
  setColor i (HSV (fmod (t * 0.05) 1.0) 1.0 1.0) m.

(** The body of the animation loop for index [i]; [t] is [ellapsedTime]. *)
Definition animateParticle (size : float) (t : double) (i : nat) (m : Mesh)
  : Mesh :=
  let increment := 0.01 in
  let incVec := vertexAt m i in
  let incVec := normalize increment incVec in
  let m := setVertex i (Vec3f.add (vertexAt m i) incVec) m in
  let m := if outside size (Vec3f.x (vertexAt m i)) then collapse t i m else m in
  let m := if outside size (Vec3f.y (vertexAt m i)) then collapse t i m else m in
  let m := if outside size (Vec3f.z (vertexAt m i)) then collapse t i m else m in
  m.

(** *** The loop body seen from one particle

    What one iteration does to the vertex it visits: [moved] is the
    position after [+= incVec], and [stepParticle] runs the three checks
    on it, returning the final position and whether some check fired
    (that is, whether the colour was rewritten). *)
Definition moved (p : Vec3f.t) : Vec3f.t := Vec3f.add p (normalize 0.01 p).

Definition checkAxis (size : float) (axis : Vec3f.t -> float)
    (st : Vec3f.t * bool) : Vec3f.t * bool :=
  if outside size (axis (fst st))
  then (Vec3f.scale (fst st) 0.000001, true) else st.

Definition stepParticle (size : float) (p : Vec3f.t) : Vec3f.t * bool :=
  checkAxis size Vec3f.z
    (checkAxis size Vec3f.y (checkAxis size Vec3f.x (moved p, false))).

Definition collapseColor (t : double) : Color :=
  HSV (fmod (t * 0.05) 1.0) 1.0 1.0.

(** The mesh after the visit of index [i]: the vertex is [fst st], and
    the colour was rewritten to [c] when [snd st] holds. *)
Definition visited (vs : list Vec3f.t) (cs : list Color) (i : nat)
    (c : Color) (st : Vec3f.t * bool) : Mesh :=
  {| vertices := <[i := fst st]> vs;
     colors := if snd st then <[i := c]> cs else cs |}.

(** Every component within the boundary. *)
Definition withinBounds (size : float) (p : Vec3f.t) : Prop :=
  Rabs (Vec3f.x p) <= size /\ Rabs (Vec3f.y p) <= size /\
  Rabs (Vec3f.z p) <= size.

(** ** FrameDriver *)

Record AlloApp := {
  texture : list Z;
  pointMesh : Mesh;
  phase : float;
  ellapsedTime : double;
  halfSize : float
}.

Definition onCreate (g : Rng) : AlloApp * Rng :=
  let built := createMesh g in
  ({| texture := AlphaMask.alpha; pointMesh := fst built;
      phase := 0; ellapsedTime := 0; halfSize := 0 |}, snd built).

(** [if (phase > 3) phase -= 3;] *)
Definition wrapTaken (p : float) : bool := bool_decide (p > 3).
Definition wrapPhase (p : float) : float := if wrapTaken p then p - 3 else p.

Definition onAnimate (dt : double) (a : AlloApp) : AlloApp :=
  let phase1 := phase a + dt in
  let ellapsedTime1 := ellapsedTime a + dt in
  let phase2 := wrapPhase phase1 in
  let halfSize1 := 0.2 * phase2 / 3 in
  let phase3 := 1.0 in
  let size := 10.0 in
  let mesh := forLoop N (animateParticle size ellapsedTime1) (pointMesh a) in
  {| texture := texture a; pointMesh := mesh;
     phase := phase3; ellapsedTime := ellapsedTime1; halfSize := halfSize1 |}.

(** What [onDraw] asks of the graphics context, in order. *)
Inductive GraphicsCall :=
| Clear (v : float)
| DepthTesting (b : bool)
| Blending (b : bool)
| BlendModeAdd
| TextureBind (tex : list Z)
| UseShader
| Uniform (name : string) (value : float)
| Draw (m : Mesh)
| TextureUnbind.

Definition onDraw (a : AlloApp) : list GraphicsCall :=
  [ Clear 0.0;
    DepthTesting false;
    Blending true;
    BlendModeAdd;
    TextureBind (texture a);
    UseShader;
    Uniform "halfSize" (halfSize a);
    Uniform "phase" (ellapsedTime a);
    Draw (pointMesh a);
    TextureUnbind ].

(** The value a uniform holds when the first [Draw] is reached. *)
Fixpoint uniformAtDraw (name : string) (cur : option float)
    (calls : list GraphicsCall) : option float :=
  match calls with
  | [] => None
  | Draw _ :: _ => cur
  | Uniform n v :: rest =>
      uniformAtDraw name (if decide (n = name) then Some v else cur) rest
  | _ :: rest => uniformAtDraw name cur rest
  end.

(** One frame: animate, then draw. *)
Definition tick (dt : double) (a : AlloApp) : AlloApp * list GraphicsCall :=
  let a := onAnimate dt a in (a, onDraw a).

(** The application state after a sequence of frames. *)
Definition frames (dts : list double) (a : AlloApp) : AlloApp :=
  foldl (fun s dt => onAnimate dt s) a dts.
End App.

(** ** Geometry stage *)

Module Geometry.
(** The [Fragment] output block together with [gl_Position]. *)
Record Vertex := {
  gl_Position : vec4;
  textureCoordinate : vec2;
  color : vec4
}.

(** Output registers, the strip being built and the primitives ended. *)
Record State := {
  out : Vertex;
  strip : list Vertex;
  primitives : list (list Vertex)
}.

(** [layout (triangle_strip, max_vertices = 4) out] *)
Definition max_vertices : nat := 4.

Definition Shader (A : Type) : Type := State -> A * State.
#[local] Instance shader_ret : MRet Shader := fun A a s => (a, s).
#[local] Instance shader_bind : MBind Shader := fun A B k c s =>
  let '(a, s') := c s in k a s'.

Definition set_gl_Position (p : vec4) : Shader unit := fun s =>
  (tt, {| out := {| gl_Position := p;
                    textureCoordinate := textureCoordinate (out s);
                    color := color (out s) |};
          strip := strip s; primitives := primitives s |}).
Definition set_textureCoordinate (c : vec2) : Shader unit := fun s =>
  (tt, {| out := {| gl_Position := gl_Position (out s);
                    textureCoordinate := c;
                    color := color (out s) |};
          strip := strip s; primitives := primitives s |}).
Definition set_color (c : vec4) : Shader unit := fun s =>
  (tt, {| out := {| gl_Position := gl_Position (out s);
                    textureCoordinate := textureCoordinate (out s);
                    color := c |};
          strip := strip s; primitives := primitives s |}).

Definition emitted (s : State) : nat :=
  (length (concat (primitives s)) + length (strip s))%nat.

(** A vertex past [max_vertices] is dropped. *)
Definition EmitVertex : Shader unit := fun s =>
  (tt, if decide (emitted s < max_vertices)%nat
       then {| out := out s; strip := strip s ++ [out s];
               primitives := primitives s |}
       else s).
Definition EndPrimitive : Shader unit := fun s =>
  (tt, {| out := out s; strip := [];
          primitives := primitives s ++ [strip s] |}).

(** [main] of the geometry shader; [gl_in0] is [gl_in[0].gl_Position] and
    [vertex0_color] is [vertex[0].color]. *)
Definition main (al_ProjectionMatrix : mat4) (halfSize : float)
    (gl_in0 : vec4) (vertex0_color : vec4) : Shader unit :=
  let m := al_ProjectionMatrix in
  let v := gl_in0 in
  set_gl_Position (mat4_mul m (vec4_add v (Vec4 (- halfSize) (- halfSize) 0.0 0.0))) ;;
  set_textureCoordinate (Vec2 0.0 0.0) ;;
  set_color vertex0_color ;;
  EmitVertex ;;
  set_gl_Position (mat4_mul m (vec4_add v (Vec4 halfSize (- halfSize) 0.0 0.0))) ;;
  set_textureCoordinate (Vec2 1.0 0.0) ;;
  set_color vertex0_color ;;
  EmitVertex ;;
  set_gl_Position (mat4_mul m (vec4_add v (Vec4 (- halfSize) halfSize 0.0 0.0))) ;;
  set_textureCoordinate (Vec2 0.0 1.0) ;;
  set_color vertex0_color ;;
  EmitVertex ;;
  set_gl_Position (mat4_mul m (vec4_add v (Vec4 halfSize halfSize 0.0 0.0))) ;;
  set_textureCoordinate (Vec2 1.0 1.0) ;;
  set_color vertex0_color ;;
  EmitVertex ;;
  EndPrimitive.

(** One invocation on one input point, from registers holding [junk]. *)
Definition invoke (m : mat4) (halfSize : float) (gl_in0 color0 : vec4)
    (junk : Vertex) : list (list Vertex) :=
  primitives
    (snd (main m halfSize gl_in0 color0
            {| out := junk; strip := []; primitives := [] |})).
End Geometry.

(** ** Concrete states

    A generator that always samples zero, and an application whose [N]
    particles all sit at the same position, after at least one frame
    ([phase] is 1), over [idealFramework]. *)

Definition zeroRng : @Rng idealFramework := fun _ => 0.

Definition cloudOf (p : Vec3f.t) : @AlloApp idealFramework :=
  {| texture := AlphaMask.alpha;
     pointMesh := {| vertices := replicate N p;
                     colors := replicate N (@HSV idealFramework 0.7 1.0 1.0) |};
     phase := 1.0; ellapsedTime := 0; halfSize := 0 |}.

(** A position far outside the boundary on two axes. *)
Definition farParticle : Vec3f.t := Vec3f.mk 30000000 40000000 0.

Definition identity4 : mat4 :=
  Mat4 (Vec4 1 0 0 0) (Vec4 0 1 0 0) (Vec4 0 0 1 0) (Vec4 0 0 0 1).

(** ** Vertex stage *)

Definition vec3_sub (a b : Vec3f.t) : Vec3f.t :=
  Vec3f.mk (Vec3f.x a - Vec3f.x b) (Vec3f.y a - Vec3f.y b)
    (Vec3f.z a - Vec3f.z b).

Module VertexStage.
(** The outputs [gl_Position] and [vertex.color], and the global
    [bitToAdd] as [main] leaves it. *)
Record Output := {
  gl_Position : vec4;
  color : vec4;
  bitToAdd : Vec3f.t
}.

Definition speed : float := 0.3.

(** [v[i]] *)
Definition component (v : Vec3f.t) (i : nat) : float :=
  match i with
  | O => Vec3f.x v
  | S O => Vec3f.y v
  | _ => Vec3f.z v
  end.

(** The GLSL built-in [normalize]: [v / length(v)]. *)
Definition glsl_normalize (v : Vec3f.t) : Vec3f.t :=
  Vec3f.scale v (/ Vec3f.mag v).

(** [main] of the vertex shader. *)
Definition main (al_ModelViewMatrix : mat4) (phase : float)
    (vertexPosition : Vec3f.t) (vertexColor : vec4) : Output :=
  let bitToAdd := vertexPosition in
  let bitToAdd := glsl_normalize bitToAdd in
  let bitToAdd := Vec3f.scale bitToAdd (phase * speed) in
  let temp := Vec3f.add bitToAdd vertexPosition in
  let bitToAdd :=
    forLoop 3
      (fun i b => if bool_decide (Rabs (component temp i) > 1.0)
                  then vec3_sub b vertexPosition else b)
      bitToAdd in
  {| gl_Position :=
       mat4_mul al_ModelViewMatrix
         (Vec4 (Vec3f.x vertexPosition) (Vec3f.y vertexPosition)
            (Vec3f.z vertexPosition) 1.0);
     color := vertexColor;
     bitToAdd := bitToAdd |}.
End VertexStage.

(** One point through the vertex stage and then the geometry stage, with
    the uniforms [halfSize] and [phase] as [onDraw] sets them. *)
Definition renderPoint (al_ModelViewMatrix al_ProjectionMatrix : mat4)
    (halfSize phase : float) (vertexPosition : Vec3f.t) (vertexColor : vec4)
    (junk : Geometry.Vertex) : list (list Geometry.Vertex) :=
  let v := VertexStage.main al_ModelViewMatrix phase vertexPosition vertexColor in
  Geometry.invoke al_ProjectionMatrix halfSize (VertexStage.gl_Position v)
    (VertexStage.color v) junk.

(** ** The samples that creation draws *)

Section Sampling.
Context {F : Framework}.

(** The generator after [k] calls of [rnd::uniform(6.2831853)], and the
    value the next call returns. *)
Definition advanceRng (k : nat) (g : Rng) : Rng :=
  Nat.iter k (fun g' => snd (uniform 6.2831853 g')) g.

Definition sampleAt (k : nat) (g : Rng) : float :=
  fst (uniform 6.2831853 (advanceRng k g)).

(** The vertex that creation builds from two angles. *)
Definition spherePoint (horizontal vertical : float) : Vec3f.t :=
  Vec3f.scale
    (Vec3f.mk (0.01 * cos horizontal * sin vertical) (0.01 * cos vertical)
       (0.01 * sin horizontal * sin vertical))
    CLOUD_WIDTH.

(** The time a sequence of frames adds up to. *)
Definition totalTime (dts : list double) : double := foldr Rplus 0 dts.

(** What holds of every position reachable from creation. *)
Definition awayFromOrigin (p : Vec3f.t) : Prop :=
  0.00001 < Vec3f.mag p /\ withinBounds 10.0 p.
End Sampling.

(** ** AlphaMask with rounding

    The same loop body with the rounding of every [float] operation made
    explicit: [fl] rounds a real result to [float], and [expf] is the
    value that [exp] returns before it is stored in the [float] [m].  The
    conversions of [i], [Ny - 1], [2], [1], [-13] and [pow(2, 15) - 1]
    are exact.  [AlphaMask.sample] is the instance in which nothing
    rounds. *)

Module AlphaMaskRounded.
Section Rounded.
Variable fl : R -> R.
Variable expf : R -> R.

(** [float(i) / (n - 1) * 2 - 1] *)
Definition coord (n i : nat) : float :=
  fl (fl (fl (INR i / IZR (Z.of_nat n - 1)) * 2) - 1).

(** The [float] [m] after [m *= pow(2, 15) - 1]. *)
Definition intensity (nx ny i j : nat) : float :=
  let y := coord ny j in
  let x := coord nx i in
  let m := fl (expf (fl (-13 * fl (fl (x * x) + fl (y * y))))) in
  let m := fl (m * (2 ^ 15 - 1)) in
  m.

(** The value stored at [alpha[j * nx + i]]. *)
Definition sample (nx ny i j : nat) : Z := truncate (intensity nx ny i j).

Definition fillRow (nx ny j : nat) (alpha : list Z) : list Z :=
  forLoop nx (fun i a => <[(j * nx + i)%nat := sample nx ny i j]> a) alpha.

Definition fill (nx ny : nat) : list Z :=
  forLoop ny (fillRow nx ny) (replicate (nx * ny) 0%Z).

Definition alpha : list Z := fill AlphaMask.Nx AlphaMask.Ny.
End Rounded.

(** The unit roundoff of binary32, round to nearest. *)
Definition unitRoundoff : R := / 2 ^ 24.

(** The magnitudes that binary32 holds as normal numbers. *)
Definition normalRange (x : R) : Prop := / 2 ^ 126 <= Rabs x <= 2 ^ 127.

(** Zero is kept, and every result in the normal range is rounded within
    the relative error [u]. *)
Definition roundsWithin (u : R) (fl : R -> R) : Prop :=
  fl 0 = 0 /\
  forall x : R, normalRange x -> Rabs (fl x - x) <= u * Rabs x.

(** [exp] is returned within the relative error [u] for arguments between
    [-80] and [80], where its value is in the normal range. *)
Definition expWithin (u : R) (expf : R -> R) : Prop :=
  forall t : R, -80 <= t <= 80 -> Rabs (expf t - exp t) <= u * exp t.

(** The exact intensity at index [(i, j)] of the 256 x 256 mask. *)
Definition exactIntensity (i j : nat) : R :=
  exp (-13 * (AlphaMask.coord 256 i * AlphaMask.coord 256 i +
              AlphaMask.coord 256 j * AlphaMask.coord 256 j)) * (2 ^ 15 - 1).
End AlphaMaskRounded.

(** * Proofs *)

(** ** Loops *)

Lemma forLoop_0 {S : Type} (body : nat -> S -> S) (s : S) :
  forLoop 0 body s = s.
Proof. reflexivity. Qed.

Lemma forLoop_S {S : Type} (n : nat) (body : nat -> S -> S) (s : S) :
  forLoop (Datatypes.S n) body s = body n (forLoop n body s).
Proof.
  unfold forLoop. rewrite seq_S, foldl_app. reflexivity.
Qed.

(** An invariant that every iteration keeps holds after the loop. *)
Lemma forLoop_invariant {S : Type} (P : S -> Prop) (n : nat)
    (body : nat -> S -> S) (s : S) :
  P s -> (forall i s', (i < n)%nat -> P s' -> P (body i s')) ->
  P (forLoop n body s).
Proof.
  intros H0 Hstep. induction n as [|n IH]; [exact H0|].
  rewrite forLoop_S. apply Hstep; [lia|]. apply IH.
  intros i s' Hi. apply Hstep. lia.
Qed.

(** ** Truncation *)

Lemma truncate_bounds (r : R) (k : Z) :
  IZR k <= r < IZR k + 1 -> 0 <= r -> truncate r = k.
Proof.
  intros [Hlo Hhi] Hpos. unfold truncate.
  destruct (Rle_dec 0 r) as [_|Hn]; [|contradiction].
  symmetry. apply Int_part_spec. lra.
Qed.

Lemma truncate_nonneg_le (r : R) (k : Z) :
  0 <= r < IZR k + 1 -> (0 <= truncate r <= k)%Z.
Proof.
  intros [Hpos Hhi]. unfold truncate.
  destruct (Rle_dec 0 r) as [_|Hn]; [|contradiction].
  destruct (base_Int_part r) as [H1 H2]. split.
  - apply le_IZR. 
    assert (IZR (Int_part r) > -1) by lra.
    apply lt_IZR in H. eapply IZR_le. lia.
  - apply Z.lt_succ_r. apply lt_IZR. rewrite succ_IZR. lra.
Qed.

Lemma truncate_mono (a b : R) : 0 <= a <= b -> (truncate a <= truncate b)%Z.
Proof.
  intros [Ha Hab]. unfold truncate.
  destruct (Rle_dec 0 a) as [_|Hn]; [|contradiction].
  destruct (Rle_dec 0 b) as [_|Hn]; [|exfalso; apply Hn; lra].
  destruct (base_Int_part a) as [Ha1 _]. destruct (base_Int_part b) as [_ Hb2].
  apply Z.lt_succ_r. apply lt_IZR. rewrite succ_IZR. lra.
Qed.

Lemma truncate_floor (r : R) :
  0 <= r -> (0 <= truncate r)%Z /\ IZR (truncate r) <= r < IZR (truncate r) + 1.
Proof.
  intros Hr. unfold truncate.
  destruct (Rle_dec 0 r) as [_|Hn]; [|contradiction].
  destruct (base_Int_part r) as [H1 H2]. split; [|lra].
  apply Z.lt_succ_r, lt_IZR. rewrite succ_IZR. simpl. lra.
Qed.

Lemma truncate_ceil (r : R) :
  r < 0 -> (truncate r <= 0)%Z /\ IZR (truncate r) - 1 < r <= IZR (truncate r).
Proof.
  intros Hr. unfold truncate.
  destruct (Rle_dec 0 r) as [Hn|_]; [lra|].
  destruct (base_Int_part (- r)) as [H1 H2]. rewrite opp_IZR. split; [|lra].
  assert (H : (-1 < Int_part (- r))%Z) by (apply lt_IZR; simpl; lra). lia.
Qed.

(** ** AlphaMask *)

Module AlphaMaskFacts.
Import AlphaMask.

Lemma rowLoop_length (n b : nat) (g : nat -> Z) (a : list Z) :
  length (forLoop n (fun i acc => <[(b + i)%nat := g i]> acc) a) = length a.
Proof.
  induction n as [|n IH]; [reflexivity|].
  rewrite forLoop_S, length_insert. exact IH.
Qed.

(** Writing [g i] at [b + i] for [i < n]: the cells of the window hold
    [g], the others are untouched. *)
Lemma rowLoop_lookup (n b : nat) (g : nat -> Z) (a : list Z) (k : nat) :
  (k < length a)%nat ->
  forLoop n (fun i acc => <[(b + i)%nat := g i]> acc) a !! k =
  if decide (b <= k < b + n)%nat then Some (g (k - b)%nat) else a !! k.
Proof.
  intros Hk. induction n as [|n IH].
  - rewrite forLoop_0. destruct (decide _); [lia|reflexivity].
  - rewrite forLoop_S. destruct (decide (k = b + n)%nat) as [->|Hne].
    + rewrite list_lookup_insert_eq by (rewrite rowLoop_length; lia).
      clear IH. destruct (decide _); [|lia]. f_equal. f_equal. lia.
    + rewrite list_lookup_insert_ne by lia. rewrite IH.
      repeat destruct (decide _); try lia; reflexivity.
Qed.

Lemma fillRow_length (nx ny j : nat) (a : list Z) :
  length (fillRow nx ny j a) = length a.
Proof. apply rowLoop_length. Qed.

Lemma fillRow_lookup (nx ny j : nat) (a : list Z) (k : nat) :
  (k < length a)%nat ->
  fillRow nx ny j a !! k =
  if decide (j * nx <= k < j * nx + nx)%nat
  then Some (sample nx ny (k - j * nx) j) else a !! k.
Proof. intros Hk. unfold fillRow. apply (rowLoop_lookup nx (j * nx)). exact Hk. Qed.

Lemma rows_length (nx ny m : nat) (a : list Z) :
  length (forLoop m (fillRow nx ny) a) = length a.
Proof.
  induction m as [|m IH]; [reflexivity|].
  rewrite forLoop_S, fillRow_length. exact IH.
Qed.

(** After the first [m] rows, the cells of those rows hold their sample. *)
Lemma rows_lookup (nx ny m : nat) (a : list Z) (i j : nat) :
  (i < nx)%nat -> (j * nx + i < length a)%nat ->
  forLoop m (fillRow nx ny) a !! (j * nx + i)%nat =
  if decide (j < m)%nat then Some (sample nx ny i j) else a !! (j * nx + i)%nat.
Proof.
  intros Hi Hlen. induction m as [|m IH].
  - rewrite forLoop_0. destruct (decide _); [lia|reflexivity].
  - rewrite forLoop_S, fillRow_lookup by (rewrite rows_length; exact Hlen).
    destruct (decide (j = m)) as [->|Hne].
    + destruct (decide (_ <= _ < _)%nat); [|lia].
      destruct (decide (m < S m)%nat); [|lia].
      f_equal. f_equal. lia.
    + destruct (decide (_ <= _ < _)%nat) as [Hin|_].
      { exfalso. destruct (Nat.lt_total j m) as [Hlt|[Heq|Hgt]]; [|lia|].
        - pose proof (Nat.mul_le_mono_r (S j) m nx ltac:(lia)). lia.
        - pose proof (Nat.mul_le_mono_r (S m) j nx ltac:(lia)). lia. }
      rewrite IH. repeat destruct (decide _); try lia; reflexivity.
Qed.

(** Every cell of the submitted buffer holds the sample of its index. *)
Lemma fill_lookup (nx ny i j : nat) :
  (i < nx)%nat -> (j < ny)%nat ->
  fill nx ny !! (j * nx + i)%nat = Some (sample nx ny i j).
Proof.
  intros Hi Hj. unfold fill. rewrite rows_lookup.
  - destruct (decide _); [reflexivity|lia].
  - exact Hi.
  - rewrite length_replicate. nia.
Qed.

Lemma fill_length (nx ny : nat) : length (fill nx ny) = (nx * ny)%nat.
Proof. unfold fill. rewrite rows_length. apply length_replicate. Qed.

Lemma alpha_lookup (i j : nat) :
  (i < Nx)%nat -> (j < Ny)%nat ->
  alpha !! (j * Nx + i)%nat = Some (sample Nx Ny i j).
Proof. apply fill_lookup. Qed.

(** The index mapping pairs [i] with [n - 1 - i] at the negated coordinate. *)
Lemma coord_mirror (n i : nat) :
  (2 <= n)%nat -> (i < n)%nat -> coord n (n - 1 - i) = - coord n i.
Proof.
  intros Hn Hi. unfold coord.
  rewrite !INR_IZR_INZ.
  replace (Z.of_nat (n - 1 - i)) with (Z.of_nat n - 1 - Z.of_nat i)%Z by lia.
  rewrite !minus_IZR.
  assert (IZR (Z.of_nat n) - 1 <> 0).
  { assert (2 <= IZR (Z.of_nat n)); [|lra].
    apply (IZR_le 2). lia. }
  field. assumption.
Qed.

Lemma sample_mirror_x (i j : nat) :
  (i < Nx)%nat -> sample Nx Ny (Nx - 1 - i) j = sample Nx Ny i j.
Proof.
  intros Hi. unfold sample.
  rewrite coord_mirror by (unfold Nx in *; lia).
  do 3 f_equal. ring.
Qed.

Lemma sample_mirror_y (i j : nat) :
  (j < Ny)%nat -> sample Nx Ny i (Ny - 1 - j) = sample Nx Ny i j.
Proof.
  intros Hj. unfold sample.
  rewrite coord_mirror by (unfold Ny in *; lia).
  do 3 f_equal. ring.
Qed.

(** The coordinate of index [i] on the 256 grid is [(2 i - 255) / 255]. *)
Lemma coord_256 (i : nat) : coord 256 i = (2 * INR i - 255) / 255.
Proof. unfold coord. change (Z.of_nat 256 - 1)%Z with 255%Z. field. Qed.

(** No index sits on an axis: its coordinate is at least [1 / 255] away. *)
Lemma coord_256_sqr (i : nat) : / 65025 <= coord 256 i * coord 256 i.
Proof.
  rewrite coord_256.
  assert (H : 1 <= (2 * INR i - 255) * (2 * INR i - 255)).
  { rewrite INR_IZR_INZ. 
    replace 2 with (IZR 2) by reflexivity. replace 255 with (IZR 255) by reflexivity.
    rewrite <- mult_IZR, <- minus_IZR, <- mult_IZR. apply (IZR_le 1).
    assert (2 * Z.of_nat i - 255 <= -1 \/ 1 <= 2 * Z.of_nat i - 255)%Z as [Hn|Hp]
      by lia; nia. }
  replace ((2 * INR i - 255) / 255 * ((2 * INR i - 255) / 255))
    with ((2 * INR i - 255) * (2 * INR i - 255) / 65025) by field.
  lra.
Qed.
End AlphaMaskFacts.

Module AlphaMaskValues.
Import AlphaMask AlphaMaskFacts.

Lemma exp_le_mono (a b : R) : a <= b -> exp a <= exp b.
Proof.
  intros [Hlt | ->]; [left; apply exp_increasing; exact Hlt | right; reflexivity].
Qed.

(** [1 - t <= exp (- t) <= 1 / (1 + t)] for [t >= 0]. *)
Lemma exp_neg_bounds (t : R) : 0 <= t -> 1 - t <= exp (- t) <= / (1 + t).
Proof.
  intros Ht. split.
  - pose proof (exp_ineq1_le (- t)). lra.
  - rewrite exp_Ropp. apply Rinv_le_contravar; [lra|]. apply exp_ineq1_le.
Qed.

Lemma exp_2_ge_3 : 3 <= exp 2.
Proof. pose proof (exp_ineq1_le 2). lra. Qed.

(** [exp 26 = (exp 2) ^ 13 >= 3 ^ 13]. *)
Lemma exp_26_large : 32768 <= exp 26.
Proof.
  assert (H : exp 26 = exp 2 ^ 13).
  { replace 26 with (2+2+2+2+2+2+2+2+2+2+2+2+2) by lra.
    rewrite !exp_plus. ring. }
  rewrite H. pose proof exp_2_ge_3 as H3.
  apply Rle_trans with (3 ^ 13); [lra|].
  apply pow_incr. lra.
Qed.

(** The scaled intensity at squared radius [2 / 65025] lies in
    [[32753, 32754)]. *)
Lemma center_intensity :
  32753 <= exp (-13 * (2 / 65025)) * (2 ^ 15 - 1) < 32754.
Proof.
  replace (-13 * (2 / 65025)) with (- (26 / 65025)) by field.
  destruct (exp_neg_bounds (26 / 65025)) as [Hlo Hhi]; [lra|].
  assert (Hinv : / (1 + 26 / 65025) = 65025 / 65051) by (field; lra).
  rewrite Hinv in Hhi. lra.
Qed.

(** The scaled intensity at squared radius [2] is below one. *)
Lemma corner_intensity : 0 <= exp (-13 * 2) * (2 ^ 15 - 1) < 1.
Proof.
  replace (-13 * 2) with (Ropp 26) by lra. rewrite exp_Ropp.
  pose proof exp_26_large as H.
  assert (Hpos : 0 < / exp 26) by (apply Rinv_0_lt_compat; lra).
  assert (Hle : / exp 26 <= / 32768) by (apply Rinv_le_contravar; lra).
  split; [nra|]. lra.
Qed.

Lemma sample_at_radius (i j : nat) (r2 : R) (k : Z) :
  coord Nx i * coord Nx i + coord Ny j * coord Ny j = r2 ->
  IZR k <= exp (-13 * r2) * (2 ^ 15 - 1) < IZR k + 1 ->
  0 <= IZR k ->
  sample Nx Ny i j = k.
Proof.
  intros Hr Hb Hk. unfold sample. rewrite Hr.
  apply truncate_bounds; lra.
Qed.

Lemma coord_127 : coord 256 127 = - / 255.
Proof. rewrite coord_256. simpl. field. Qed.
Lemma coord_128 : coord 256 128 = / 255.
Proof. rewrite coord_256. simpl. field. Qed.
Lemma coord_first : coord 256 0 = -1.
Proof. rewrite coord_256. simpl. field. Qed.
Lemma coord_last : coord 256 255 = 1.
Proof. rewrite coord_256. rewrite INR_IZR_INZ. simpl. field. Qed.

Lemma sample_center (i j : nat) :
  (i = 127 \/ i = 128)%nat -> (j = 127 \/ j = 128)%nat ->
  sample Nx Ny i j = 32753%Z.
Proof.
  intros Hi Hj. apply (sample_at_radius i j (2 / 65025)).
  - unfold Nx, Ny.
    destruct Hi as [-> | ->], Hj as [-> | ->];
      rewrite ?coord_127, ?coord_128; field.
  - pose proof center_intensity. lra.
  - lra.
Qed.

Lemma sample_corner (i j : nat) :
  (i = 0 \/ i = 255)%nat -> (j = 0 \/ j = 255)%nat ->
  sample Nx Ny i j = 0%Z.
Proof.
  intros Hi Hj. apply (sample_at_radius i j 2).
  - unfold Nx, Ny.
    destruct Hi as [-> | ->], Hj as [-> | ->];
      rewrite ?coord_first, ?coord_last; ring.
  - pose proof corner_intensity. lra.
  - lra.
Qed.

(** Every sample is at most the central one. *)
Lemma sample_range (i j : nat) : (0 <= sample Nx Ny i j <= 32753)%Z.
Proof.
  unfold sample. apply truncate_nonneg_le.
  pose proof (coord_256_sqr i) as Hx. pose proof (coord_256_sqr j) as Hy.
  fold Nx in Hx. fold Ny in Hy.
  set (x := coord Nx i) in *. set (y := coord Ny j) in *.
  assert (Hexp : exp (-13 * (x * x + y * y)) <= exp (-13 * (2 / 65025))).
  { apply exp_le_mono. lra. }
  pose proof (exp_pos (-13 * (x * x + y * y))) as Hpos.
  pose proof center_intensity as Hc.
  split; [nra|]. 
  apply Rle_lt_trans with (exp (-13 * (2 / 65025)) * (2 ^ 15 - 1)); [|lra].
  apply Rmult_le_compat_r; lra.
Qed.
End AlphaMaskValues.

(** ** Vectors *)

Module Vec3fFacts.
Import Vec3f.

Lemma magSqr_nonneg (a : t) : 0 <= magSqr a.
Proof. unfold magSqr. nra. Qed.

Lemma mag_nonneg (a : t) : 0 <= mag a.
Proof. apply sqrt_pos. Qed.

Lemma mag_sqr (a : t) : mag a * mag a = magSqr a.
Proof. apply sqrt_sqrt, magSqr_nonneg. Qed.

Lemma mag_zero : mag zero = 0.
Proof.
  unfold mag, magSqr, zero. simpl.
  replace (0 * 0 + 0 * 0 + 0 * 0) with 0 by ring. apply sqrt_0.
Qed.

Lemma mag_scale (a : t) (k : float) : 0 <= k -> mag (scale a k) = k * mag a.
Proof.
  intros Hk. unfold mag.
  apply sqrt_lem_1.
  - apply magSqr_nonneg.
  - apply Rmult_le_pos; [exact Hk|apply sqrt_pos].
  - transitivity (k * k * (sqrt (magSqr a) * sqrt (magSqr a))); [ring|].
    rewrite sqrt_sqrt by apply magSqr_nonneg.
    unfold magSqr, scale. simpl. ring.
Qed.

Lemma add_scale (a : t) (k : float) : add a (scale a k) = scale a (1 + k).
Proof. unfold add, scale. simpl. f_equal; ring. Qed.

Lemma scale_scale (a : t) (k l : float) :
  scale (scale a k) l = scale a (k * l).
Proof. unfold scale. simpl. f_equal; ring. Qed.

Lemma mag_eq_0 (a : t) : mag a = 0 -> a = zero.
Proof.
  intros H. apply sqrt_eq_0 in H; [|apply magSqr_nonneg].
  destruct a as [ax ay az]. unfold magSqr in H. simpl in H.
  assert (ax = 0) by nra. assert (ay = 0) by nra. assert (az = 0) by nra.
  subst. reflexivity.
Qed.

Lemma mag_ne_0 (a : t) : a <> zero -> mag a <> 0.
Proof. intros Ha H. apply Ha, mag_eq_0, H. Qed.

(** No component is longer than the vector. *)
Lemma components_le_mag (a : t) :
  Rabs (x a) <= mag a /\ Rabs (y a) <= mag a /\ Rabs (z a) <= mag a.
Proof.
  pose proof (mag_nonneg a) as Hm. pose proof (mag_sqr a) as Hs.
  unfold magSqr in Hs.
  repeat split; apply Rabs_le; split; nra.
Qed.
End Vec3fFacts.

(** ** The animation loop *)

Section LoopFacts.
Context {F : Framework}.

Lemma vertexAt_lookup (m : Mesh) (i : nat) (p : Vec3f.t) :
  vertices m !! i = Some p -> vertexAt m i = p.
Proof. intros H. unfold vertexAt. rewrite H. reflexivity. Qed.

Lemma vertexAt_visited vs cs i c st :
  (i < length vs)%nat -> vertexAt (visited vs cs i c st) i = fst st.
Proof.
  intros Hi. apply vertexAt_lookup. simpl.
  apply list_lookup_insert_eq, Hi.
Qed.

Lemma collapse_visited vs cs i t st :
  (i < length vs)%nat ->
  collapse t i (visited vs cs i (collapseColor t) st) =
  visited vs cs i (collapseColor t) (Vec3f.scale (fst st) 0.000001, true).
Proof.
  intros Hi. unfold collapse. rewrite vertexAt_visited by exact Hi.
  unfold setColor, setVertex, visited. simpl.
  rewrite list_insert_insert_eq. f_equal.
  destruct (snd st); [apply list_insert_insert_eq|reflexivity].
Qed.

Lemma check_visited size axis vs cs i t st :
  (i < length vs)%nat ->
  (let m := visited vs cs i (collapseColor t) st in
   if outside size (axis (vertexAt m i)) then collapse t i m else m) =
  visited vs cs i (collapseColor t) (checkAxis size axis st).
Proof.
  intros Hi. cbv zeta. rewrite vertexAt_visited by exact Hi.
  unfold checkAxis. destruct (outside size (axis (fst st))).
  - apply collapse_visited, Hi.
  - reflexivity.
Qed.

(** One iteration on a vertex that exists. *)
Lemma animateParticle_visit size t i m p :
  vertices m !! i = Some p ->
  animateParticle size t i m =
  {| vertices := <[i := fst (stepParticle size p)]> (vertices m);
     colors := if snd (stepParticle size p)
               then <[i := collapseColor t]> (colors m) else colors m |}.
Proof.
  intros Hp. pose proof (lookup_lt_Some _ _ _ Hp) as Hi.
  unfold animateParticle. cbv zeta.
  rewrite (vertexAt_lookup m i p Hp).
  change (setVertex i (Vec3f.add p (normalize 0.01 p)) m)
    with (visited (vertices m) (colors m) i (collapseColor t) (moved p, false)).
  rewrite (check_visited size Vec3f.x _ _ _ _ _ Hi).
  rewrite (check_visited size Vec3f.y _ _ _ _ _ Hi).
  rewrite (check_visited size Vec3f.z _ _ _ _ _ Hi).
  reflexivity.
Qed.

Lemma outside_zero : outside 10.0 0 = false.
Proof.
  unfold outside. rewrite !bool_decide_eq_false_2; [reflexivity | lra | lra].
Qed.

(** One iteration on an index past the end of the vertex buffer. *)
Lemma animateParticle_skip t i m :
  vertices m !! i = None -> animateParticle 10.0 t i m = m.
Proof.
  intros Hp. apply lookup_ge_None in Hp.
  assert (Hset : forall v, setVertex i v m = m).
  { intros v. unfold setVertex. rewrite list_insert_ge by exact Hp.
    destruct m; reflexivity. }
  assert (Hat : vertexAt m i = Vec3f.zero).
  { unfold vertexAt. rewrite (proj2 (lookup_ge_None _ _) Hp). reflexivity. }
  unfold animateParticle. cbv zeta. rewrite Hset.
  repeat (rewrite Hat; simpl; rewrite outside_zero). reflexivity.
Qed.

Lemma animateParticle_vertices_length size t i m :
  length (vertices (animateParticle size t i m)) = length (vertices m).
Proof.
  unfold animateParticle, collapse, setColor, setVertex. cbv zeta.
  repeat (destruct (outside _ _); simpl); rewrite ?length_insert; reflexivity.
Qed.

(** The vertex buffer after the first [n] iterations. *)
Lemma animateLoop_vertices t n m k :
  vertices (forLoop n (animateParticle 10.0 t) m) !! k =
  if decide (k < n)%nat
  then (fun p => fst (stepParticle 10.0 p)) <$> vertices m !! k
  else vertices m !! k.
Proof.
  revert k. induction n as [|n IH]; intros k.
  - rewrite forLoop_0. destruct (decide _); [lia|reflexivity].
  - rewrite forLoop_S. set (m' := forLoop n (animateParticle 10.0 t) m) in *.
    assert (Hn : vertices m' !! n = vertices m !! n).
    { rewrite IH. destruct (decide _); [lia|reflexivity]. }
    destruct (vertices m !! n) as [p|] eqn:Hp.
    + rewrite (animateParticle_visit _ _ _ _ p Hn). simpl.
      rewrite list_lookup_insert.
      pose proof (lookup_lt_Some _ _ _ Hn) as Hlen.
      destruct (decide (n = k ∧ _)) as [[-> _]|Hne].
      * destruct (decide (k < S k)%nat); [|lia]. rewrite Hp. reflexivity.
      * rewrite IH. assert (k <> n) by (intros ->; apply Hne; split; [reflexivity|exact Hlen]).
        repeat destruct (decide _); try lia; reflexivity.
    + rewrite (animateParticle_skip _ _ _ Hn). rewrite IH.
      destruct (decide (k = n)) as [->|Hne].
      * rewrite Hp. repeat destruct (decide _); reflexivity.
      * repeat destruct (decide _); try lia; reflexivity.
Qed.

(** The colour buffer after the first [n] iterations. *)
Lemma animateLoop_colors t n m k :
  colors (forLoop n (animateParticle 10.0 t) m) !! k =
  match vertices m !! k with
  | Some p =>
      if decide (k < n)%nat
      then if snd (stepParticle 10.0 p)
           then (fun _ => collapseColor t) <$> colors m !! k
           else colors m !! k
      else colors m !! k
  | None => colors m !! k
  end.
Proof.
  revert k. induction n as [|n IH]; intros k.
  - rewrite forLoop_0. destruct (vertices m !! k); [|reflexivity].
    destruct (decide _); [lia|reflexivity].
  - rewrite forLoop_S. set (m' := forLoop n (animateParticle 10.0 t) m) in *.
    assert (Hn : vertices m' !! n = vertices m !! n).
    { unfold m'. rewrite animateLoop_vertices.
      destruct (decide _); [lia|reflexivity]. }
    assert (Hcn : colors m' !! n = colors m !! n).
    { rewrite IH. destruct (vertices m !! n); [|reflexivity].
      destruct (decide _); [lia|reflexivity]. }
    destruct (vertices m !! n) as [p|] eqn:Hp.
    + rewrite (animateParticle_visit _ _ _ _ p Hn). simpl.
      destruct (decide (k = n)) as [->|Hne].
      * rewrite Hp. destruct (decide (n < S n)%nat); [|lia].
        destruct (snd (stepParticle 10.0 p)); [|exact Hcn].
        rewrite list_lookup_insert.
        destruct (decide (n = n ∧ _)) as [[_ Hlen]|Hno].
        -- apply lookup_lt_is_Some in Hlen. rewrite Hcn in Hlen.
           destruct Hlen as [c Hc]. rewrite Hc. reflexivity.
        -- rewrite Hcn.
           assert (Hge : (length (colors m') <= n)%nat) by lia.
           apply lookup_ge_None in Hge. rewrite Hcn in Hge. rewrite Hge.
           reflexivity.
      * assert (Hk : (if snd (stepParticle 10.0 p)
                      then <[n := collapseColor t]> (colors m') else colors m') !! k
                     = colors m' !! k).
        { destruct (snd (stepParticle 10.0 p)); [|reflexivity].
          apply list_lookup_insert_ne. lia. }
        rewrite Hk, IH. destruct (vertices m !! k); [|reflexivity].
        repeat destruct (decide _); try lia; reflexivity.
    + rewrite (animateParticle_skip _ _ _ Hn). rewrite IH.
      destruct (decide (k = n)) as [->|Hne].
      * rewrite Hp. reflexivity.
      * destruct (vertices m !! k); [|reflexivity].
        repeat destruct (decide _); try lia; reflexivity.
Qed.
End LoopFacts.

(** ** One particle *)

Section ParticleFacts.
Context {F : Framework}.

Lemma Rabs_gt_cases (c s : R) : Rabs c > s -> c > s \/ c < - s.
Proof. unfold Rabs. destruct (Rcase_abs c); lra. Qed.

Lemma Rabs_le_cases (c s : R) : Rabs c <= s -> - s <= c <= s.
Proof. unfold Rabs. destruct (Rcase_abs c); lra. Qed.

Lemma outside_true (size c : float) :
  outside size c = true <-> c > size \/ c < - size.
Proof.
  unfold outside. rewrite orb_true_iff, !bool_decide_eq_true. reflexivity.
Qed.

Lemma outside_false (size c : float) :
  outside size c = false <-> - size <= c <= size.
Proof.
  unfold outside. rewrite orb_false_iff, !bool_decide_eq_false. lra.
Qed.

Lemma outside_Rabs (size c : float) :
  0 <= size -> outside size c = true <-> Rabs c > size.
Proof.
  intros Hs. rewrite outside_true. split.
  - unfold Rabs. destruct (Rcase_abs c); lra.
  - apply Rabs_gt_cases.
Qed.

Lemma checkAxis_fired size axis st :
  outside size (axis (fst st)) = true ->
  checkAxis size axis st = (Vec3f.scale (fst st) 0.000001, true).
Proof. intros H. unfold checkAxis. rewrite H. reflexivity. Qed.

Lemma checkAxis_passed size axis st :
  outside size (axis (fst st)) = false -> checkAxis size axis st = st.
Proof. intros H. unfold checkAxis. rewrite H. reflexivity. Qed.

(** Case analysis on the three checks of [stepParticle], with the tests
    turned into inequalities on the components. *)
Ltac axis_cases :=
  unfold stepParticle, checkAxis;
  repeat match goal with
  | |- context [outside ?s ?c] =>
      lazymatch c with context [outside _ _] => fail | _ => idtac end;
      let H := fresh "Hout" in
      destruct (outside s c) eqn:H;
      [apply outside_true in H | apply outside_false in H];
      cbn [fst snd Vec3f.scale Vec3f.x Vec3f.y Vec3f.z] in *
  end.

(** Some check fires exactly when a component of the moved position is
    outside the boundary. *)
Lemma stepParticle_fired (p : Vec3f.t) :
  snd (stepParticle 10.0 p) = true <->
  Rabs (Vec3f.x (moved p)) > 10.0 \/ Rabs (Vec3f.y (moved p)) > 10.0 \/
  Rabs (Vec3f.z (moved p)) > 10.0.
Proof.
  rewrite <- !outside_Rabs by lra. rewrite !outside_true.
  destruct (moved p) as [px py pz] eqn:Hm. 
  unfold stepParticle. rewrite Hm. clear Hm. simpl.
  axis_cases; simpl; split; intros H; try reflexivity; try discriminate; lra.
Qed.

(** Without a firing check the particle stays where the drift put it. *)
Lemma stepParticle_quiet (p : Vec3f.t) :
  snd (stepParticle 10.0 p) = false -> fst (stepParticle 10.0 p) = moved p.
Proof.
  destruct (moved p) as [px py pz] eqn:Hm.
  unfold stepParticle. rewrite Hm. clear Hm.
  axis_cases; simpl; intros H; try discriminate; reflexivity.
Qed.

(** No component of the moved position outside: no check fires. *)
Lemma stepParticle_within_quiet (p : Vec3f.t) :
  withinBounds 10.0 (moved p) -> snd (stepParticle 10.0 p) = false.
Proof.
  intros (Hx & Hy & Hz). apply not_true_is_false. intros Hfired.
  apply stepParticle_fired in Hfired. lra.
Qed.

(** Each firing check multiplies by [0.000001]; between one and three
    of them fire once a component is outside. *)
Lemma stepParticle_collapsed (p : Vec3f.t) :
  snd (stepParticle 10.0 p) = true ->
  exists k : nat, (1 <= k <= 3)%nat /\
    fst (stepParticle 10.0 p) = Vec3f.scale (moved p) (0.000001 ^ k).
Proof.
  destruct (moved p) as [px py pz] eqn:Hm.
  unfold stepParticle. rewrite Hm. clear Hm.
  axis_cases; simpl; intros H; try discriminate;
    [exists 3%nat | exists 2%nat | exists 2%nat | exists 1%nat
    | exists 2%nat | exists 1%nat | exists 1%nat];
    (split; [lia|]); unfold Vec3f.scale; simpl; f_equal; ring.
Qed.

(** With the [y] and [z] components of the moved position below [10^7]
    in absolute value, exactly one check fires. *)
Lemma stepParticle_collapsed_once (p : Vec3f.t) :
  snd (stepParticle 10.0 p) = true ->
  Rabs (Vec3f.y (moved p)) <= 10000000 ->
  Rabs (Vec3f.z (moved p)) <= 10000000 ->
  fst (stepParticle 10.0 p) = Vec3f.scale (moved p) 0.000001.
Proof.
  intros Hf Hy Hz. apply Rabs_le_cases in Hy, Hz. revert Hf Hy Hz.
  destruct (moved p) as [px py pz] eqn:Hm.
  unfold stepParticle. rewrite Hm. clear Hm. simpl.
  axis_cases; simpl; intros Hf Hy Hz; try discriminate; try lra; reflexivity.
Qed.

(** The moved position is at most [0.01] further out on every axis. *)
Lemma moved_bounds (p : Vec3f.t) :
  Vec3f.mag (normalize 0.01 p) <= 0.01 ->
  withinBounds 10.0 p ->
  - 10.01 <= Vec3f.x (moved p) <= 10.01 /\
  - 10.01 <= Vec3f.y (moved p) <= 10.01 /\
  - 10.01 <= Vec3f.z (moved p) <= 10.01.
Proof.
  intros Hn (Hx & Hy & Hz).
  destruct (Vec3fFacts.components_le_mag (normalize 0.01 p)) as (Ix & Iy & Iz).
  apply Rabs_le_cases in Hx, Hy, Hz.
  assert (Jx := Rabs_le_cases _ _ (Rle_trans _ _ _ Ix Hn)).
  assert (Jy := Rabs_le_cases _ _ (Rle_trans _ _ _ Iy Hn)).
  assert (Jz := Rabs_le_cases _ _ (Rle_trans _ _ _ Iz Hn)).
  unfold moved, Vec3f.add. simpl. lra.
Qed.

(** The three checks bring a position that is at most [10.01] out on
    every axis back within the boundary. *)
Lemma stepParticle_within (p : Vec3f.t) :
  Vec3f.mag (normalize 0.01 p) <= 0.01 ->
  withinBounds 10.0 p ->
  withinBounds 10.0 (fst (stepParticle 10.0 p)).
Proof.
  intros Hn Hb. destruct (moved_bounds p Hn Hb) as (Hx & Hy & Hz).
  revert Hx Hy Hz.
  destruct (moved p) as [px py pz] eqn:Hm.
  unfold stepParticle. rewrite Hm. clear Hm. simpl.
  axis_cases; simpl; intros Hx Hy Hz; unfold withinBounds; simpl;
    repeat split; apply Rabs_le; lra.
Qed.

(** With the ideal direction the drift adds exactly [0.01] to the
    distance from the origin. *)
Lemma moved_distance (p : Vec3f.t) :
  (forall s v, Vec3f.mag v <> 0 ->
     normalize s v = Vec3f.scale v (s / Vec3f.mag v)) ->
  p <> Vec3f.zero ->
  Vec3f.mag (moved p) = Vec3f.mag p + 0.01.
Proof.
  intros Hnorm Hp. apply Vec3fFacts.mag_ne_0 in Hp.
  pose proof (Vec3fFacts.mag_nonneg p) as Hpos.
  unfold moved. rewrite Hnorm by exact Hp.
  rewrite Vec3fFacts.add_scale, Vec3fFacts.mag_scale.
  - field. exact Hp.
  - assert (0 < / Vec3f.mag p) by (apply Rinv_0_lt_compat; lra).
    unfold Rdiv. nra.
Qed.
End ParticleFacts.

(** ** Frames *)

Section FrameFacts.
Context {F : Framework}.

Lemma onAnimate_mesh (dt : double) (a : AlloApp) :
  pointMesh (onAnimate dt a) =
  forLoop N (animateParticle 10.0 (ellapsedTime a + dt)) (pointMesh a).
Proof. reflexivity. Qed.

Lemma onAnimate_vertex (dt : double) (a : AlloApp) (i : nat) (p : Vec3f.t) :
  (i < N)%nat -> vertices (pointMesh a) !! i = Some p ->
  vertices (pointMesh (onAnimate dt a)) !! i = Some (fst (stepParticle 10.0 p)).
Proof.
  intros Hi Hp. rewrite onAnimate_mesh, animateLoop_vertices, Hp.
  destruct (decide _); [reflexivity|lia].
Qed.

Lemma onAnimate_color (dt : double) (a : AlloApp) (i : nat) (p : Vec3f.t) :
  (i < N)%nat -> vertices (pointMesh a) !! i = Some p ->
  colors (pointMesh (onAnimate dt a)) !! i =
  if snd (stepParticle 10.0 p)
  then (fun _ => collapseColor (ellapsedTime a + dt)) <$> colors (pointMesh a) !! i
  else colors (pointMesh a) !! i.
Proof.
  intros Hi Hp. rewrite onAnimate_mesh, animateLoop_colors, Hp.
  destruct (decide _); [reflexivity|lia].
Qed.

Lemma onAnimate_phase (dt : double) (a : AlloApp) : phase (onAnimate dt a) = 1.0.
Proof. reflexivity. Qed.

Lemma frames_snoc (dts : list double) (dt : double) (a : AlloApp) :
  frames (dts ++ [dt]) a = onAnimate dt (frames dts a).
Proof. unfold frames. rewrite foldl_snoc. reflexivity. Qed.

(** After at least one frame the stored phase is the constant. *)
Lemma frames_phase (dt0 : double) (dts : list double) (a : AlloApp) :
  phase (frames (dt0 :: dts) a) = 1.0.
Proof.
  revert dt0 a. induction dts as [|d dts IH]; intros dt0 a.
  - reflexivity.
  - exact (IH d (onAnimate dt0 a)).
Qed.

Lemma wrapPhase_range (p : float) :
  0 <= p < 3 \/ 3 < p < 6 -> 0 <= wrapPhase p < 3.
Proof.
  intros H. unfold wrapPhase, wrapTaken. destruct (bool_decide_reflect (p > 3)); lra.
Qed.

(** The vertices stay within the boundary over one frame, when
    [normalize] never returns more than the requested length. *)
Lemma onAnimate_within (dt : double) (a : AlloApp) :
  (forall s v, 0 <= s -> Vec3f.mag (normalize s v) <= s) ->
  Forall (withinBounds 10.0) (vertices (pointMesh a)) ->
  Forall (withinBounds 10.0) (vertices (pointMesh (onAnimate dt a))).
Proof.
  intros Hnorm Hb. rewrite Forall_lookup in Hb |- *. intros i q Hq.
  rewrite onAnimate_mesh, animateLoop_vertices in Hq.
  destruct (decide (i < N)%nat).
  - destruct (vertices (pointMesh a) !! i) as [p|] eqn:Hp; [|discriminate].
    simpl in Hq. injection Hq as <-.
    apply stepParticle_within; [apply Hnorm; lra|exact (Hb i p Hp)].
  - exact (Hb i q Hq).
Qed.

Lemma frames_within (dts : list double) (a : AlloApp) :
  (forall s v, 0 <= s -> Vec3f.mag (normalize s v) <= s) ->
  Forall (withinBounds 10.0) (vertices (pointMesh a)) ->
  Forall (withinBounds 10.0) (vertices (pointMesh (frames dts a))).
Proof.
  intros Hnorm. revert a. induction dts as [|dt dts IH]; intros a Hb.
  - exact Hb.
  - apply (IH (onAnimate dt a)). apply onAnimate_within; assumption.
Qed.
End FrameFacts.

Section FrameProperties.
Context {F : Framework}.

Lemma animateParticle_colors_length size t i m :
  length (colors (animateParticle size t i m)) = length (colors m).
Proof.
  unfold animateParticle, collapse, setColor, setVertex. cbv zeta.
  repeat (destruct (outside _ _); simpl); rewrite ?length_insert; reflexivity.
Qed.

Lemma onAnimate_lengths (dt : double) (a : AlloApp) :
  length (vertices (pointMesh (onAnimate dt a))) = length (vertices (pointMesh a)) /\
  length (colors (pointMesh (onAnimate dt a))) = length (colors (pointMesh a)).
Proof.
  rewrite onAnimate_mesh.
  apply (forLoop_invariant
           (fun m => length (vertices m) = length (vertices (pointMesh a)) /\
                     length (colors m) = length (colors (pointMesh a)))).
  - split; reflexivity.
  - intros i m _ [Hv Hc].
    rewrite animateParticle_vertices_length, animateParticle_colors_length.
    split; assumption.
Qed.

Lemma frames_cons (dt : double) (dts : list double) (a : AlloApp) :
  frames (dt :: dts) a = frames dts (onAnimate dt a).
Proof. reflexivity. Qed.

Lemma onAnimate_halfSize (dt : double) (a : AlloApp) :
  halfSize (onAnimate dt a) = 0.2 * wrapPhase (phase a + dt) / 3.
Proof. reflexivity. Qed.

Lemma frames_lengths (dts : list double) (a : AlloApp) :
  length (vertices (pointMesh (frames dts a))) = length (vertices (pointMesh a)) /\
  length (colors (pointMesh (frames dts a))) = length (colors (pointMesh a)).
Proof.
  revert a. induction dts as [|dt dts IH]; intros a; [split; reflexivity|].
  rewrite frames_cons. destruct (IH (onAnimate dt a)) as [Hv Hc].
  destruct (onAnimate_lengths dt a) as [Hv' Hc']. split; congruence.
Qed.
End FrameProperties.

(** ** Creation *)

Section CreateFacts.
Context {F : Framework}.

(** The spherical parameterization has unit norm, so the point lies at
    [0.01 * CLOUD_WIDTH] from the origin. *)
Lemma sphere_point_mag (horizontal vertical : float) :
  Vec3f.mag
    (Vec3f.scale
       (Vec3f.mk (0.01 * cos horizontal * sin vertical) (0.01 * cos vertical)
          (0.01 * sin horizontal * sin vertical))
       CLOUD_WIDTH) = 0.8.
Proof.
  unfold Vec3f.mag. apply sqrt_lem_1; [apply Vec3fFacts.magSqr_nonneg|lra|].
  unfold Vec3f.magSqr, Vec3f.scale, CLOUD_WIDTH. simpl.
  pose proof (sin2_cos2 horizontal) as Hh. pose proof (sin2_cos2 vertical) as Hv.
  unfold Rsqr in Hh, Hv.
  set (sh := sin horizontal) in *. set (ch := cos horizontal) in *.
  set (sv := sin vertical) in *. set (cv := cos vertical) in *.
  symmetry.
  transitivity (0.64 * (sv * sv * (sh * sh + ch * ch) + cv * cv)); [nra|].
  rewrite Hh. replace (sv * sv * 1 + cv * cv) with (sv * sv + cv * cv) by ring.
  rewrite Hv. lra.
Qed.

Lemma createParticle_created (n : nat) (st : Mesh * Rng) :
  created n (fst st) -> created (S n) (fst (createParticle st)).
Proof.
  intros (Hlv & Hlc & Hv & Hc). destruct st as [m g]. unfold createParticle.
  destruct (uniform 6.2831853 g) as [horizontal g1].
  destruct (uniform 6.2831853 g1) as [vertical g2].
  simpl in *. unfold created. simpl. rewrite !length_app. simpl.
  repeat split; try lia.
  - apply Forall_app. split; [exact Hv|].
    constructor; [apply sphere_point_mag|constructor].
  - apply Forall_app. split; [exact Hc|].
    constructor; [reflexivity|constructor].
Qed.

Lemma createLoop_created (n : nat) (g : Rng) :
  created n (fst (forLoop n (fun _ => createParticle) (emptyMesh, g))).
Proof.
  induction n as [|n IH].
  - rewrite forLoop_0. simpl. repeat split; constructor.
  - rewrite forLoop_S. apply createParticle_created, IH.
Qed.

Lemma onCreate_created (g : Rng) : created N (pointMesh (fst (onCreate g))).
Proof. apply (createLoop_created N g). Qed.

Lemma sphere_within (p : Vec3f.t) : Vec3f.mag p = 0.8 -> withinBounds 10.0 p.
Proof.
  intros Hm. destruct (Vec3fFacts.components_le_mag p) as (Hx & Hy & Hz).
  rewrite Hm in Hx, Hy, Hz. unfold withinBounds. lra.
Qed.

Lemma onCreate_within (g : Rng) :
  Forall (withinBounds 10.0) (vertices (pointMesh (fst (onCreate g)))).
Proof.
  destruct (onCreate_created g) as (_ & _ & Hv & _).
  eapply Forall_impl; [exact Hv|]. intros p. apply sphere_within.
Qed.
End CreateFacts.

(** ** The ideal framework *)

Lemma ideal_normalize_nonzero (s : float) (v : Vec3f.t) :
  Vec3f.mag v <> 0 ->
  @normalize idealFramework s v = Vec3f.scale v (s / Vec3f.mag v).
Proof. reflexivity. Qed.

Lemma ideal_normalize_bound (s : float) (v : Vec3f.t) :
  0 <= s -> Vec3f.mag (@normalize idealFramework s v) <= s.
Proof.
  intros Hs. simpl.
  destruct (Req_dec (Vec3f.mag v) 0) as [H0|Hne].
  - apply Vec3fFacts.mag_eq_0 in H0. subst v.
    replace (Vec3f.scale Vec3f.zero (s / Vec3f.mag Vec3f.zero)) with Vec3f.zero.
    + rewrite Vec3fFacts.mag_zero. exact Hs.
    + unfold Vec3f.scale, Vec3f.zero. simpl. f_equal; ring.
  - pose proof (Vec3fFacts.mag_nonneg v) as Hpos.
    assert (0 < / Vec3f.mag v) by (apply Rinv_0_lt_compat; lra).
    rewrite Vec3fFacts.mag_scale by (unfold Rdiv; nra).
    right. field. exact Hne.
Qed.

Lemma N_positive : (0 < N)%nat.
Proof. apply Nat.ltb_lt. vm_compute. reflexivity. Qed.

Lemma axis_mag (c : float) : 0 <= c -> Vec3f.mag (Vec3f.mk c 0 0) = c.
Proof.
  intros Hc. unfold Vec3f.mag, Vec3f.magSqr. simpl.
  apply sqrt_lem_1; nra.
Qed.

(** On the positive [x] axis the ideal drift adds [0.01] to [x]. *)
Lemma ideal_moved_axis (c : float) :
  0 < c -> @moved idealFramework (Vec3f.mk c 0 0) = Vec3f.mk (c + 0.01) 0 0.
Proof.
  intros Hc. unfold moved. simpl. rewrite axis_mag by lra.
  unfold Vec3f.add, Vec3f.scale. simpl. f_equal; field; lra.
Qed.

Lemma cloudOf_vertex (p : Vec3f.t) (i : nat) :
  (i < N)%nat -> vertices (pointMesh (cloudOf p)) !! i = Some p.
Proof. intros Hi. apply (lookup_replicate_2 N p i Hi). Qed.

(** ** AlphaMask with rounding

    How far the rounded computation of a sample can be from the exact
    one, when every [float] operation is within the unit roundoff. *)

Module AlphaMaskRoundedFacts.
Import AlphaMaskRounded.

Section Errors.
Variable fl : R -> R.
Variable expf : R -> R.
Hypothesis fl_round : roundsWithin unitRoundoff fl.
Hypothesis expf_round : expWithin (4 * unitRoundoff) expf.

Lemma unitRoundoff_value : unitRoundoff = 1 / 16777216.
Proof. unfold unitRoundoff. field. Qed.

(** Magnitudes between [10^-15] and [10^6] are in the normal range. *)
Lemma normalRange_intro (x : R) :
  x <= - (1 / 1000000000000000) \/ 1 / 1000000000000000 <= x ->
  - 1000000 <= x <= 1000000 -> normalRange x.
Proof.
  intros Hlo Hhi. unfold normalRange.
  assert (H10 : (2 : R) ^ 10 = 1024) by (simpl; lra).
  assert (H126 : 1000000000000000 <= (2 : R) ^ 126).
  { replace (2 ^ 126) with (((2 : R) ^ 10) ^ 12 * 2 ^ 6)
      by (rewrite <- pow_mult, <- pow_add; reflexivity).
    rewrite H10.
    assert ((1000 : R) ^ 12 <= 1024 ^ 12) by (apply pow_incr; lra).
    assert ((1000 : R) ^ 12 = 1000000000000000 * 1000000000000000 * 1000000)
      by (simpl; lra).
    assert ((2 : R) ^ 6 = 64) by (simpl; lra).
    nra. }
  assert (H127 : 1000000 <= (2 : R) ^ 127).
  { replace (2 ^ 127) with ((2 : R) ^ 126 * 2) by (simpl; lra). lra. }
  assert (Hinv : / 2 ^ 126 <= 1 / 1000000000000000).
  { unfold Rdiv. rewrite Rmult_1_l. apply Rinv_le_contravar; lra. }
  unfold Rabs. destruct (Rcase_abs x); lra.
Qed.

(** The rounding error of a value that is zero or in the normal range and
    bounded by [B]. *)
Lemma fl_error (x B : R) :
  x = 0 \/ x <= - (1 / 1000000000000000) \/ 1 / 1000000000000000 <= x ->
  - B <= x <= B -> B <= 1000000 ->
  - (B / 16777216) <= fl x - x <= B / 16777216.
Proof.
  intros Hr Hx HB. destruct fl_round as [H0 Hfl].
  destruct Hr as [-> | Hr].
  - rewrite H0. lra.
  - pose proof (Hfl x (normalRange_intro x Hr ltac:(lra))) as H.
    rewrite unitRoundoff_value in H.
    assert (Rabs x <= B) by (apply Rabs_le; lra).
    apply Rabs_le_cases. pose proof (Rabs_pos x). lra.
Qed.

(** The rounding error of a positive value in the normal range. *)
Lemma fl_error_pos (x : R) :
  1 / 1000000000000000 <= x <= 1000000 ->
  - (x / 16777216) <= fl x - x <= x / 16777216.
Proof. intros Hx. apply fl_error; lra. Qed.

Lemma expf_error (t : R) :
  -80 <= t <= 80 ->
  - (exp t / 4194304) <= expf t - exp t <= exp t / 4194304.
Proof.
  intros Ht. pose proof (expf_round t Ht) as H. rewrite unitRoundoff_value in H.
  apply Rabs_le_cases. lra.
Qed.

(** The coordinate of the rounded computation is within [7 u] of the
    exact one. *)
Lemma coord_error (i : nat) :
  (i <= 255)%nat ->
  - (7 / 16777216) <= coord fl 256 i - AlphaMask.coord 256 i <= 7 / 16777216.
Proof.
  intros Hi. unfold coord.
  pose proof (AlphaMaskFacts.coord_256_sqr i) as Hsq. revert Hsq.
  unfold AlphaMask.coord.
  change (Z.of_nat 256 - 1)%Z with 255%Z. intros Hsq.
  assert (H255 : INR 255 = 255) by (rewrite INR_IZR_INZ; reflexivity).
  assert (Ha : INR i / 255 = 0 \/ 1 / 255 <= INR i / 255 <= 1).
  { destruct i as [|i].
    - left. simpl. lra.
    - right. apply le_INR in Hi. rewrite H255 in Hi.
      assert (1 <= INR (S i)) by (rewrite S_INR; pose proof (pos_INR i); lra).
      unfold Rdiv. lra. }
  set (a := INR i / 255) in *.
  assert (E1 : - (1 / 16777216) <= fl a - a <= 1 / 16777216 /\
               (fl a = 0 \/ 1 / 256 <= fl a)).
  { destruct Ha as [Ha | Ha].
    - rewrite Ha. destruct fl_round as [H0 _]. rewrite H0. split; [lra|left; reflexivity].
    - pose proof (fl_error_pos a ltac:(lra)). split; [lra|right; lra]. }
  destruct E1 as [E1 Hz1]. set (a1 := fl a) in *.
  assert (E2 : - (3 / 16777216) <= fl (a1 * 2) - a1 * 2 <= 3 / 16777216).
  { apply fl_error; [destruct Hz1 as [-> | Hz1]; [left; ring|right; right; lra]|lra|lra]. }
  set (a2 := fl (a1 * 2)) in *.
  assert (Hx : a * 2 - 1 <= - (1 / 255) \/ 1 / 255 <= a * 2 - 1).
  { destruct (Rle_or_lt 0 (a * 2 - 1)); [right|left]; nra. }
  assert (E3 := fl_error (a2 - 1) 2 ltac:(right; lra) ltac:(lra) ltac:(lra)).
  lra.
Qed.

(** [exp] near zero. *)
Lemma exp_near_1 (d : R) :
  - (1 / 2) <= d <= 1 / 2 -> - (2 * Rabs d) <= exp d - 1 <= 2 * Rabs d.
Proof.
  intros Hd. pose proof (exp_ineq1_le d) as Hlo.
  pose proof (exp_ineq1_le (- d)) as Hneg. rewrite exp_Ropp in Hneg.
  pose proof (exp_pos d) as Hpos.
  assert (Hinv : / exp d * exp d = 1) by (field; lra).
  unfold Rabs. destruct (Rcase_abs d) as [Hn|Hp].
  - split; [lra|]. assert (1 <= / exp d) by lra. nra.
  - split; [lra|].
    assert (H1 : exp d * (1 + - d) <= exp d * / exp d)
      by (apply Rmult_le_compat_l; lra).
    assert (H2 : exp d * (1 - d) <= 1) by lra.
    assert (H3 : exp d * (1 - d) >= exp d * (1 / 2)) by nra.
    nra.
Qed.

(** [|X| exp (-13 X^2) <= 1 / 7]. *)
Lemma falloff_times_coord (X : R) : Rabs X * exp (-13 * (X * X)) <= 1 / 7.
Proof.
  pose proof (Rabs_pos X) as Ha.
  assert (Hsq : Rabs X * Rabs X = X * X).
  { unfold Rabs. destruct (Rcase_abs X); ring. }
  set (a := Rabs X) in *.
  replace (-13 * (X * X)) with (- (13 * (X * X))) by ring. rewrite exp_Ropp.
  pose proof (exp_ineq1_le (13 * (X * X))) as He.
  assert (Hq : 0 <= (a - 7 / 26) * (a - 7 / 26)) by apply Rle_0_sqr.
  assert (H7 : 7 * a <= exp (13 * (X * X))) by nra.
  pose proof (exp_pos (13 * (X * X))) as Hpos.
  assert (Hinv : / exp (13 * (X * X)) * exp (13 * (X * X)) = 1) by (field; lra).
  assert (0 < / exp (13 * (X * X))) by (apply Rinv_0_lt_compat; exact Hpos).
  nra.
Qed.

(** [z exp (- z) <= 1]. *)
Lemma falloff_times_arg (z : R) : 0 <= z -> z * exp (- z) <= 1.
Proof.
  intros Hz. rewrite exp_Ropp. pose proof (exp_ineq1_le z) as He.
  pose proof (exp_pos z) as Hpos.
  assert (Hinv : / exp z * exp z = 1) by (field; lra).
  assert (0 < / exp z) by (apply Rinv_0_lt_compat; exact Hpos).
  nra.
Qed.

Lemma product_error (a b A B : R) :
  - A <= a <= A -> - B <= b <= B -> - (A * B) <= a * b <= A * B.
Proof. intros Ha Hb. split; nra. Qed.

(** The square of a rounded coordinate. *)
Lemma square_error (X x : R) :
  / 65025 <= X * X -> X * X <= 1 ->
  - (7 / 16777216) <= x - X <= 7 / 16777216 ->
  1 / 100000 <= fl (x * x) /\
  - (15 / 16777216 * Rabs X + X * X / 16777216) <= fl (x * x) - X * X
    <= 15 / 16777216 * Rabs X + X * X / 16777216.
Proof.
  intros Hlo Hhi Hx.
  pose proof (Rabs_pos X) as Ha.
  assert (Hsq : Rabs X * Rabs X = X * X).
  { unfold Rabs. destruct (Rcase_abs X); ring. }
  assert (HX : - Rabs X <= X <= Rabs X).
  { unfold Rabs. destruct (Rcase_abs X); lra. }
  set (a := Rabs X) in *.
  assert (Ha1 : / 255 <= a <= 1) by nra.
  assert (Hprod := product_error (x - X) X (7 / 16777216) a Hx HX).
  assert (Hee := product_error (x - X) (x - X) (7 / 16777216) (7 / 16777216) Hx Hx).
  assert (Hxx : x * x = X * X + 2 * ((x - X) * X) + (x - X) * (x - X)) by ring.
  assert (Hnn : 14 / 1000000 <= x * x <= 2) by nra.
  assert (E := fl_error_pos (x * x) ltac:(lra)).
  split; lra.
Qed.

(** [exp] at whole numbers. *)
Lemma exp_INR (n : nat) : exp (INR n) = exp 1 ^ n.
Proof.
  induction n as [|n IH].
  - simpl. apply exp_0.
  - rewrite S_INR, exp_plus, IH. simpl. ring.
Qed.

Lemma exp_27_bound : exp 27 <= 10000000000000.
Proof.
  assert (H27 : INR 27 = 27) by (rewrite INR_IZR_INZ; reflexivity).
  rewrite <- H27, exp_INR.
  pose proof (exp_pos 1). pose proof exp_le_3.
  apply Rle_trans with (3 ^ 27); [apply pow_incr; lra|].
  simpl. lra.
Qed.

(** [exp] is at least [10^-13] from [-27] on. *)
Lemma exp_lower (t : R) : -27 <= t -> 1 / 10000000000000 <= exp t.
Proof.
  intros Ht. pose proof exp_27_bound as H27. pose proof (exp_pos 27) as Hp.
  apply Rle_trans with (exp (- (27))).
  - rewrite exp_Ropp. unfold Rdiv. rewrite Rmult_1_l.
    apply Rinv_le_contravar; lra.
  - apply AlphaMaskValues.exp_le_mono. lra.
Qed.

(** The rounded intensity is non-negative and within [0.27] of the exact
    one. *)
Lemma intensity_error_at (X Y x y : R) :
  / 65025 <= X * X -> X * X <= 1 -> / 65025 <= Y * Y -> Y * Y <= 1 ->
  - (7 / 16777216) <= x - X <= 7 / 16777216 ->
  - (7 / 16777216) <= y - Y <= 7 / 16777216 ->
  0 <= fl (fl (expf (fl (-13 * fl (fl (x * x) + fl (y * y))))) * (2 ^ 15 - 1)) /\
  - (27 / 100) <=
    fl (fl (expf (fl (-13 * fl (fl (x * x) + fl (y * y))))) * (2 ^ 15 - 1))
    - exp (-13 * (X * X + Y * Y)) * (2 ^ 15 - 1) <= 27 / 100.
Proof.
  intros HXlo HXhi HYlo HYhi Hx Hy.
  destruct (square_error X x HXlo HXhi Hx) as [Hqx0 Hqx].
  destruct (square_error Y y HYlo HYhi Hy) as [Hqy0 Hqy].
  pose proof (Rabs_pos X) as Hax. pose proof (Rabs_pos Y) as Hay.
  assert (Hax1 : Rabs X <= 1).
  { assert (Rabs X * Rabs X = X * X) by (unfold Rabs; destruct (Rcase_abs X); ring).
    nra. }
  assert (Hay1 : Rabs Y <= 1).
  { assert (Rabs Y * Rabs Y = Y * Y) by (unfold Rabs; destruct (Rcase_abs Y); ring).
    nra. }
  pose proof (falloff_times_coord X) as HpX.
  pose proof (falloff_times_coord Y) as HpY.
  pose proof (falloff_times_arg (13 * (X * X + Y * Y)) ltac:(nra)) as HpS.
  replace (- (13 * (X * X + Y * Y))) with (-13 * (X * X + Y * Y)) in HpS by ring.
  assert (HE : exp (-13 * (X * X + Y * Y)) =
               exp (-13 * (X * X)) * exp (-13 * (Y * Y))).
  { rewrite <- exp_plus. f_equal. ring. }
  pose proof (exp_pos (-13 * (X * X))) as HeX.
  pose proof (exp_pos (-13 * (Y * Y))) as HeY.
  assert (HeX1 : exp (-13 * (X * X)) <= 1).
  { rewrite <- exp_0. apply AlphaMaskValues.exp_le_mono. nra. }
  assert (HeY1 : exp (-13 * (Y * Y)) <= 1).
  { rewrite <- exp_0. apply AlphaMaskValues.exp_le_mono. nra. }
  set (ax := Rabs X) in *. set (ay := Rabs Y) in *.
  set (X2 := X * X) in *. set (Y2 := Y * Y) in *.
  set (qx := fl (x * x)) in *. set (qy := fl (y * y)) in *.
  (* the sum *)
  assert (Es := fl_error_pos (qx + qy) ltac:(lra)).
  set (s := fl (qx + qy)) in *.
  assert (Hs0 : 1 / 100000 <= s <= 21 / 10) by lra.
  (* the argument of exp *)
  assert (Et := fl_error (-13 * s) (13 * s) ltac:(right; left; lra)
                  ltac:(lra) ltac:(lra)).
  set (t := fl (-13 * s)) in *.
  assert (Ht : -27 <= t <= 0) by lra.
  set (T := -13 * (X2 + Y2)) in *.
  assert (Hd : - (209 / 16777216 * (ax + ay) + 53 / 16777216 * (X2 + Y2))
               <= t - T <=
               209 / 16777216 * (ax + ay) + 53 / 16777216 * (X2 + Y2)).
  { unfold T. lra. }
  set (E := exp T) in *.
  assert (HE0 : 0 < E) by apply exp_pos.
  assert (HE1 : E <= 1) by (rewrite HE; nra).
  assert (Hpa : E * ax <= 1 / 7) by (rewrite HE; nra).
  assert (Hpb : E * ay <= 1 / 7) by (rewrite HE; nra).
  assert (Hps : E * (X2 + Y2) <= 1 / 13) by (unfold T in HpS; lra).
  assert (Hpa0 : 0 <= E * ax) by nra.
  assert (Hpb0 : 0 <= E * ay) by nra.
  assert (Hps0 : 0 <= E * (X2 + Y2)) by nra.
  (* exp t against exp T *)
  assert (Hdabs : Rabs (t - T) <=
                  209 / 16777216 * (ax + ay) + 53 / 16777216 * (X2 + Y2))
    by (apply Rabs_le; lra).
  assert (Hnear := exp_near_1 (t - T) ltac:(lra)).
  assert (Hexp : exp t = E * exp (t - T)).
  { unfold E. rewrite <- exp_plus. f_equal. ring. }
  assert (HEd : E * Rabs (t - T) <= 64 / 16777216).
  { apply Rle_trans with
      (E * (209 / 16777216 * (ax + ay) + 53 / 16777216 * (X2 + Y2))).
    - apply Rmult_le_compat_l; lra.
    - lra. }
  assert (HEd0 : 0 <= E * Rabs (t - T)) by (pose proof (Rabs_pos (t - T)); nra).
  assert (Het : - (128 / 16777216) <= exp t - E <= 128 / 16777216).
  { rewrite Hexp. split; nra. }
  pose proof (exp_lower t ltac:(lra)) as Hlow.
  (* the value exp returns, stored in a float *)
  assert (Ee := expf_error t ltac:(lra)).
  set (e := expf t) in *.
  assert (Em1 := fl_error_pos e ltac:(lra)).
  set (m1 := fl e) in *.
  assert (H215 : (2 ^ 15 - 1 : R) = 32767) by (simpl; lra).
  rewrite !H215.
  assert (Em := fl_error_pos (m1 * 32767) ltac:(lra)).
  set (m := fl (m1 * 32767)) in *.
  split; lra.
Qed.

(** The rounded intensity of every cell of the 256 x 256 mask. *)
Lemma intensity_error (i j : nat) :
  (i < AlphaMask.Nx)%nat -> (j < AlphaMask.Ny)%nat ->
  0 <= intensity fl expf AlphaMask.Nx AlphaMask.Ny i j /\
  - (27 / 100) <=
    intensity fl expf AlphaMask.Nx AlphaMask.Ny i j - exactIntensity i j
    <= 27 / 100.
Proof.
  unfold AlphaMask.Nx, AlphaMask.Ny. intros Hi Hj.
  assert (Hsq : forall k : nat, (k < 256)%nat ->
            / 65025 <= AlphaMask.coord 256 k * AlphaMask.coord 256 k /\
            AlphaMask.coord 256 k * AlphaMask.coord 256 k <= 1).
  { intros k Hk. split; [apply AlphaMaskFacts.coord_256_sqr|].
    rewrite AlphaMaskFacts.coord_256.
    assert (Hk' : (k <= 255)%nat) by lia.
    apply le_INR in Hk'. pose proof (pos_INR k) as H0.
    assert (H255 : INR 255 = 255) by (rewrite INR_IZR_INZ; reflexivity).
    rewrite H255 in Hk'.
    assert (-1 <= (2 * INR k - 255) / 255 <= 1) by (unfold Rdiv; lra).
    nra. }
  destruct (Hsq i Hi) as [HXlo HXhi]. destruct (Hsq j Hj) as [HYlo HYhi].
  apply (intensity_error_at _ _ _ _ HXlo HXhi HYlo HYhi);
    apply coord_error; lia.
Qed.
End Errors.

(** Truncation of two non-negative values less than one apart. *)
Lemma truncate_near (a b : R) :
  0 <= a -> 0 <= b -> a - b < 1 -> (truncate a <= truncate b + 1)%Z.
Proof.
  intros Ha Hb Hab.
  destruct (truncate_floor a Ha) as [_ [Ha1 Ha2]].
  destruct (truncate_floor b Hb) as [_ [Hb1 Hb2]].
  apply Z.lt_succ_r, lt_IZR. rewrite succ_IZR, plus_IZR. simpl. lra.
Qed.

(** The nested loops, for any cell value [g i j]. *)
Lemma gridLoop_lookup (g : nat -> nat -> Z) (nx m : nat) (a : list Z) (i j : nat) :
  (i < nx)%nat -> (j * nx + i < length a)%nat ->
  forLoop m
    (fun j' acc => forLoop nx (fun i' b => <[(j' * nx + i')%nat := g i' j']> b) acc)
    a !! (j * nx + i)%nat =
  if decide (j < m)%nat then Some (g i j) else a !! (j * nx + i)%nat.
Proof.
  intros Hi Hlen.
  assert (Hlength : forall k : nat,
            length (forLoop k
              (fun j' acc =>
                 forLoop nx (fun i' b => <[(j' * nx + i')%nat := g i' j']> b) acc)
              a) = length a).
  { induction k as [|k IHk]; [reflexivity|].
    rewrite forLoop_S.
    rewrite (AlphaMaskFacts.rowLoop_length nx (k * nx) (fun i' => g i' k)).
    exact IHk. }
  induction m as [|m IH].
  - rewrite forLoop_0. destruct (decide (j < 0)%nat); [lia|reflexivity].
  - rewrite forLoop_S.
    rewrite (AlphaMaskFacts.rowLoop_lookup nx (m * nx) (fun i' => g i' m))
      by (rewrite Hlength; exact Hlen).
    destruct (decide (m * nx <= j * nx + i < m * nx + nx)%nat) as [Hin|Hout].
    + assert (j = m).
      { destruct (Nat.lt_total j m) as [Hlt|[Heq|Hgt]]; [|exact Heq|].
        - pose proof (Nat.mul_le_mono_r (S j) m nx ltac:(lia)). lia.
        - pose proof (Nat.mul_le_mono_r (S m) j nx ltac:(lia)). lia. }
      subst j. destruct (decide (m < S m)%nat); [|lia].
      f_equal. f_equal. lia.
    + rewrite IH. assert (j <> m) by (intros ->; apply Hout; lia).
      destruct (decide (j < m)%nat), (decide (j < S m)%nat); try lia; reflexivity.
Qed.

Lemma rounded_alpha_lookup (fl expf : R -> R) (i j : nat) :
  (i < AlphaMask.Nx)%nat -> (j < AlphaMask.Ny)%nat ->
  alpha fl expf !! (j * AlphaMask.Nx + i)%nat =
  Some (sample fl expf AlphaMask.Nx AlphaMask.Ny i j).
Proof.
  intros Hi Hj. unfold alpha, fill, fillRow.
  rewrite (gridLoop_lookup (fun i' j' => sample fl expf AlphaMask.Nx AlphaMask.Ny i' j')).
  - destruct (decide (j < AlphaMask.Ny)%nat); [reflexivity|lia].
  - exact Hi.
  - rewrite length_replicate. unfold AlphaMask.Nx, AlphaMask.Ny in *. nia.
Qed.

(** Without rounding the buffer is the exact one. *)
Lemma exact_sample (nx ny i j : nat) :
  sample (fun x => x) exp nx ny i j = AlphaMask.sample nx ny i j.
Proof. reflexivity. Qed.

Lemma exact_rounds : roundsWithin unitRoundoff (fun x => x).
Proof.
  split; [reflexivity|]. intros x _. replace (x - x) with 0 by ring.
  rewrite Rabs_R0. apply Rmult_le_pos; [|apply Rabs_pos].
  unfold unitRoundoff. left. apply Rinv_0_lt_compat. lra.
Qed.

Lemma exact_exp : expWithin (4 * unitRoundoff) exp.
Proof.
  intros t _. replace (exp t - exp t) with 0 by ring. rewrite Rabs_R0.
  pose proof (exp_pos t).
  assert (0 < unitRoundoff) by (unfold unitRoundoff; apply Rinv_0_lt_compat; lra).
  nra.
Qed.

(** The exact intensity is the same at mirrored indices. *)
Lemma exactIntensity_radius (i j i' j' : nat) :
  AlphaMask.coord 256 i * AlphaMask.coord 256 i +
    AlphaMask.coord 256 j * AlphaMask.coord 256 j <=
  AlphaMask.coord 256 i' * AlphaMask.coord 256 i' +
    AlphaMask.coord 256 j' * AlphaMask.coord 256 j' ->
  exactIntensity i' j' <= exactIntensity i j.
Proof.
  intros Hr. unfold exactIntensity.
  apply Rmult_le_compat_r; [simpl; lra|].
  apply AlphaMaskValues.exp_le_mono. lra.
Qed.

(** Two cells whose exact intensities are ordered hold samples ordered up
    to one unit. *)
Lemma sample_order (fl expf : R -> R) (i j i' j' : nat) :
  roundsWithin unitRoundoff fl -> expWithin (4 * unitRoundoff) expf ->
  (i < AlphaMask.Nx)%nat -> (j < AlphaMask.Ny)%nat ->
  (i' < AlphaMask.Nx)%nat -> (j' < AlphaMask.Ny)%nat ->
  exactIntensity i' j' <= exactIntensity i j ->
  (sample fl expf AlphaMask.Nx AlphaMask.Ny i' j' <=
   sample fl expf AlphaMask.Nx AlphaMask.Ny i j + 1)%Z.
Proof.
  intros Hfl Hexp Hi Hj Hi' Hj' Hle.
  destruct (intensity_error fl expf Hfl Hexp i j Hi Hj) as [H0 He].
  destruct (intensity_error fl expf Hfl Hexp i' j' Hi' Hj') as [H0' He'].
  unfold sample. apply truncate_near; lra.
Qed.
End AlphaMaskRoundedFacts.

(** * The claims *)

(** C5, as stated, fails: the 256 x 256 grid has no sample at its exact
    centre (the coordinates of the indices are the odd multiples of
    [1 / 255]), and the four samples around the centre hold 32753, not the
    maximal 32767. *)
Lemma alpha_center_counterexample :
  AlphaMask.alpha !! (127 * AlphaMask.Nx + 127)%nat <> Some 32767%Z /\
  AlphaMask.alpha !! (127 * AlphaMask.Nx + 128)%nat <> Some 32767%Z /\
  AlphaMask.alpha !! (128 * AlphaMask.Nx + 127)%nat <> Some 32767%Z /\
  AlphaMask.alpha !! (128 * AlphaMask.Nx + 128)%nat <> Some 32767%Z.
Proof.
  repeat split;
    (rewrite AlphaMaskFacts.alpha_lookup by (unfold AlphaMask.Nx, AlphaMask.Ny; lia);
     rewrite AlphaMaskValues.sample_center by lia; discriminate).
Qed.

(** C5 (amended): in the 256 x 256 mask every sample lies between 0 and
    32753, below the maximal 32767 of the encoding; the four samples
    nearest the centre of the grid are 32753, the largest value of the
    mask; the samples at the four corners are 0. *)
Theorem alpha_center_and_corners :
  (forall i j : nat, (i < AlphaMask.Nx)%nat -> (j < AlphaMask.Ny)%nat ->
     exists s : Z, AlphaMask.alpha !! (j * AlphaMask.Nx + i)%nat = Some s /\
                   (0 <= s <= 32753)%Z) /\
  (forall i j : nat, (i = 127 \/ i = 128)%nat -> (j = 127 \/ j = 128)%nat ->
     AlphaMask.alpha !! (j * AlphaMask.Nx + i)%nat = Some 32753%Z) /\
  (forall i j : nat, (i = 0 \/ i = 255)%nat -> (j = 0 \/ j = 255)%nat ->
     AlphaMask.alpha !! (j * AlphaMask.Nx + i)%nat = Some 0%Z).
Proof.
  split; [|split].
  - intros i j Hi Hj. exists (AlphaMask.sample AlphaMask.Nx AlphaMask.Ny i j).
    split; [apply AlphaMaskFacts.alpha_lookup; assumption|].
    apply AlphaMaskValues.sample_range.
  - intros i j Hi Hj.
    rewrite AlphaMaskFacts.alpha_lookup by (unfold AlphaMask.Nx, AlphaMask.Ny; lia).
    f_equal. apply AlphaMaskValues.sample_center; assumption.
  - intros i j Hi Hj.
    rewrite AlphaMaskFacts.alpha_lookup by (unfold AlphaMask.Nx, AlphaMask.Ny; lia).
    f_equal. apply AlphaMaskValues.sample_corner; assumption.
Qed.

(** C7: the mask is symmetric under reflection about both grid axes
    within numeric tolerance.  With every [float] result in the normal
    range rounded within the unit roundoff [2^-24] and [exp] returned
    within [2^-22], the coordinates of the indices [i] and [Nx - 1 - i] are opposite within 14
    roundoffs, and the sample at [(i, j)] differs by at most one unit of
    the [short] encoding from the samples at the mirrored index in [x], in
    [y] and in both (the exact intensity depends only on [x^2 + y^2] and
    is the same at the four cells). *)
Theorem alpha_mask_symmetric (fl expf : R -> R) :
  AlphaMaskRounded.roundsWithin AlphaMaskRounded.unitRoundoff fl ->
  AlphaMaskRounded.expWithin (4 * AlphaMaskRounded.unitRoundoff) expf ->
  forall i j : nat,
  (i < AlphaMask.Nx)%nat -> (j < AlphaMask.Ny)%nat ->
  Rabs (AlphaMaskRounded.coord fl AlphaMask.Nx (AlphaMask.Nx - 1 - i) +
        AlphaMaskRounded.coord fl AlphaMask.Nx i)
    <= 14 * AlphaMaskRounded.unitRoundoff /\
  Rabs (AlphaMaskRounded.coord fl AlphaMask.Ny (AlphaMask.Ny - 1 - j) +
        AlphaMaskRounded.coord fl AlphaMask.Ny j)
    <= 14 * AlphaMaskRounded.unitRoundoff /\
  exists s sx sy sxy : Z,
    AlphaMaskRounded.alpha fl expf !! (j * AlphaMask.Nx + i)%nat = Some s /\
    AlphaMaskRounded.alpha fl expf
      !! (j * AlphaMask.Nx + (AlphaMask.Nx - 1 - i))%nat = Some sx /\
    AlphaMaskRounded.alpha fl expf
      !! ((AlphaMask.Ny - 1 - j) * AlphaMask.Nx + i)%nat = Some sy /\
    AlphaMaskRounded.alpha fl expf
      !! ((AlphaMask.Ny - 1 - j) * AlphaMask.Nx + (AlphaMask.Nx - 1 - i))%nat
      = Some sxy /\
    (-1 <= sx - s <= 1)%Z /\ (-1 <= sy - s <= 1)%Z /\ (-1 <= sxy - s <= 1)%Z.
Proof.
  intros Hfl Hexp i j Hi Hj.
  assert (Hi' : (AlphaMask.Nx - 1 - i < AlphaMask.Nx)%nat) by lia.
  assert (Hj' : (AlphaMask.Ny - 1 - j < AlphaMask.Ny)%nat) by lia.
  assert (Hcoord : forall k : nat, (k < 256)%nat ->
            Rabs (AlphaMaskRounded.coord fl 256 (256 - 1 - k) +
                  AlphaMaskRounded.coord fl 256 k)
            <= 14 * AlphaMaskRounded.unitRoundoff).
  { intros k Hk.
    pose proof (AlphaMaskRoundedFacts.coord_error fl Hfl k ltac:(lia)) as E1.
    pose proof (AlphaMaskRoundedFacts.coord_error fl Hfl (256 - 1 - k) ltac:(lia)) as E2.
    rewrite (AlphaMaskFacts.coord_mirror 256 k) in E2 by lia.
    rewrite AlphaMaskRoundedFacts.unitRoundoff_value. apply Rabs_le. lra. }
  assert (Hmirror : forall i1 j1 i2 j2 : nat,
            AlphaMask.coord 256 i2 * AlphaMask.coord 256 i2 =
              AlphaMask.coord 256 i1 * AlphaMask.coord 256 i1 ->
            AlphaMask.coord 256 j2 * AlphaMask.coord 256 j2 =
              AlphaMask.coord 256 j1 * AlphaMask.coord 256 j1 ->
            AlphaMaskRounded.exactIntensity i2 j2 =
            AlphaMaskRounded.exactIntensity i1 j1).
  { intros i1 j1 i2 j2 Hx Hy. unfold AlphaMaskRounded.exactIntensity.
    rewrite Hx, Hy. reflexivity. }
  assert (Hsqx : AlphaMask.coord 256 (256 - 1 - i) * AlphaMask.coord 256 (256 - 1 - i)
                 = AlphaMask.coord 256 i * AlphaMask.coord 256 i).
  { rewrite (AlphaMaskFacts.coord_mirror 256 i) by (unfold AlphaMask.Nx in Hi; lia).
    ring. }
  assert (Hsqy : AlphaMask.coord 256 (256 - 1 - j) * AlphaMask.coord 256 (256 - 1 - j)
                 = AlphaMask.coord 256 j * AlphaMask.coord 256 j).
  { rewrite (AlphaMaskFacts.coord_mirror 256 j) by (unfold AlphaMask.Ny in Hj; lia).
    ring. }
  assert (Hnear : forall i2 j2 : nat,
            (i2 < AlphaMask.Nx)%nat -> (j2 < AlphaMask.Ny)%nat ->
            AlphaMaskRounded.exactIntensity i2 j2 =
              AlphaMaskRounded.exactIntensity i j ->
            (-1 <= AlphaMaskRounded.sample fl expf AlphaMask.Nx AlphaMask.Ny i2 j2
                   - AlphaMaskRounded.sample fl expf AlphaMask.Nx AlphaMask.Ny i j
                <= 1)%Z).
  { intros i2 j2 Hi2 Hj2 Heq.
    pose proof (AlphaMaskRoundedFacts.sample_order fl expf i j i2 j2
                  Hfl Hexp Hi Hj Hi2 Hj2 ltac:(lra)).
    pose proof (AlphaMaskRoundedFacts.sample_order fl expf i2 j2 i j
                  Hfl Hexp Hi2 Hj2 Hi Hj ltac:(lra)).
    lia. }
  split; [exact (Hcoord i Hi)|]. split; [exact (Hcoord j Hj)|].
  exists (AlphaMaskRounded.sample fl expf AlphaMask.Nx AlphaMask.Ny i j),
    (AlphaMaskRounded.sample fl expf AlphaMask.Nx AlphaMask.Ny (AlphaMask.Nx - 1 - i) j),
    (AlphaMaskRounded.sample fl expf AlphaMask.Nx AlphaMask.Ny i (AlphaMask.Ny - 1 - j)),
    (AlphaMaskRounded.sample fl expf AlphaMask.Nx AlphaMask.Ny
       (AlphaMask.Nx - 1 - i) (AlphaMask.Ny - 1 - j)).
  rewrite !AlphaMaskRoundedFacts.rounded_alpha_lookup by assumption.
  repeat split; try reflexivity;
    try (apply Hnear; [assumption|assumption|]); try (apply Hnear; assumption).
  all: apply Hmirror; first [exact Hsqx | exact Hsqy | reflexivity].
Qed.

(** C7 at the sample [(3, 5)], for the computation in which nothing
    rounds. *)
Lemma alpha_mask_symmetric_witness :
  Rabs (AlphaMaskRounded.coord (fun x => x) AlphaMask.Nx (AlphaMask.Nx - 1 - 3) +
        AlphaMaskRounded.coord (fun x => x) AlphaMask.Nx 3)
    <= 14 * AlphaMaskRounded.unitRoundoff.
Proof.
  refine (proj1 (alpha_mask_symmetric (fun x => x) exp
                   AlphaMaskRoundedFacts.exact_rounds
                   AlphaMaskRoundedFacts.exact_exp 3 5 _ _));
    unfold AlphaMask.Nx, AlphaMask.Ny; lia.
Defined.

(** C8: every particle that creation places lies at distance
    [0.01 * CLOUD_WIDTH = 0.8] from the origin, whatever the two sampled
    angles (the spherical parameterization has unit norm), and has the
    colour [HSV(0.7, 1, 1)]. *)
Theorem created_on_sphere {F : Framework} (g : Rng) (i : nat) :
  (i < N)%nat ->
  (forall horizontal vertical : float,
     Vec3f.mag
       (Vec3f.scale
          (Vec3f.mk (0.01 * cos horizontal * sin vertical) (0.01 * cos vertical)
             (0.01 * sin horizontal * sin vertical))
          CLOUD_WIDTH) = 0.8) /\
  (exists p : Vec3f.t,
     vertices (pointMesh (fst (onCreate g))) !! i = Some p /\
     Vec3f.mag p = 0.8) /\
  colors (pointMesh (fst (onCreate g))) !! i = Some (HSV 0.7 1.0 1.0).
Proof.
  intros Hi. destruct (onCreate_created g) as (Hlv & Hlc & Hv & Hc).
  split; [exact sphere_point_mag|]. split.
  - destruct (lookup_lt_is_Some_2 (vertices (pointMesh (fst (onCreate g)))) i)
      as [p Hp]; [lia|].
    exists p. split; [exact Hp|].
    rewrite Forall_lookup in Hv. exact (Hv i p Hp).
  - destruct (lookup_lt_is_Some_2 (colors (pointMesh (fst (onCreate g)))) i)
      as [c Hcl]; [lia|].
    rewrite Hcl. f_equal. rewrite Forall_lookup in Hc. exact (Hc i c Hcl).
Qed.

(** C8 for the first particle created from the generator [zeroRng]. *)
Lemma created_on_sphere_witness :
  colors (pointMesh (fst (@onCreate idealFramework zeroRng))) !! 0%nat =
  Some (@HSV idealFramework 0.7 1.0 1.0).
Proof.
  exact (proj2 (proj2 (@created_on_sphere idealFramework zeroRng 0 N_positive))).
Defined.

(** C1: for every particle of a state reached from creation - and more
    generally for every particle that is within the boundary before the
    step - if after the positional update some component of its position
    exceeds the boundary 10.0 in absolute value, then at the end of the
    step its position is the pre-check position multiplied by [0.000001]
    and its colour is [HSV(fmod(ellapsedTime * 0.05, 1.0), 1.0, 1.0)],
    with [ellapsedTime] already advanced by [dt].  [normalize] is assumed
    never to return a vector longer than the requested length. *)
Theorem boundary_collapse {F : Framework}
    (normalize_bound : forall s v, 0 <= s -> Vec3f.mag (normalize s v) <= s) :
  (forall (a : AlloApp) (dt : double) (i : nat) (p : Vec3f.t),
     (i < N)%nat ->
     vertices (pointMesh a) !! i = Some p ->
     (i < length (colors (pointMesh a)))%nat ->
     withinBounds 10.0 p ->
     Rabs (Vec3f.x (moved p)) > 10.0 \/ Rabs (Vec3f.y (moved p)) > 10.0 \/
       Rabs (Vec3f.z (moved p)) > 10.0 ->
     vertices (pointMesh (onAnimate dt a)) !! i =
       Some (Vec3f.scale (moved p) 0.000001) /\
     colors (pointMesh (onAnimate dt a)) !! i =
       Some (HSV (fmod (ellapsedTime (onAnimate dt a) * 0.05) 1.0) 1.0 1.0)) /\
  (forall (g : Rng) (dts : list double) (dt : double) (i : nat) (p : Vec3f.t),
     (i < N)%nat ->
     vertices (pointMesh (frames dts (fst (onCreate g)))) !! i = Some p ->
     Rabs (Vec3f.x (moved p)) > 10.0 \/ Rabs (Vec3f.y (moved p)) > 10.0 \/
       Rabs (Vec3f.z (moved p)) > 10.0 ->
     vertices (pointMesh (onAnimate dt (frames dts (fst (onCreate g))))) !! i =
       Some (Vec3f.scale (moved p) 0.000001) /\
     colors (pointMesh (onAnimate dt (frames dts (fst (onCreate g))))) !! i =
       Some (HSV (fmod (ellapsedTime (onAnimate dt (frames dts (fst (onCreate g))))
                        * 0.05) 1.0) 1.0 1.0)).
Proof.
  assert (Hstep : forall (a : AlloApp) (dt : double) (i : nat) (p : Vec3f.t),
     (i < N)%nat ->
     vertices (pointMesh a) !! i = Some p ->
     (i < length (colors (pointMesh a)))%nat ->
     withinBounds 10.0 p ->
     Rabs (Vec3f.x (moved p)) > 10.0 \/ Rabs (Vec3f.y (moved p)) > 10.0 \/
       Rabs (Vec3f.z (moved p)) > 10.0 ->
     vertices (pointMesh (onAnimate dt a)) !! i =
       Some (Vec3f.scale (moved p) 0.000001) /\
     colors (pointMesh (onAnimate dt a)) !! i =
       Some (HSV (fmod (ellapsedTime (onAnimate dt a) * 0.05) 1.0) 1.0 1.0)).
  { intros a dt i p Hi Hp Hc Hb Hout. apply stepParticle_fired in Hout.
    assert (Hle : Vec3f.mag (normalize 0.01 p) <= 0.01)
      by (apply normalize_bound; lra).
    destruct (moved_bounds p Hle Hb) as (Hx & Hy & Hz).
    rewrite (onAnimate_vertex dt a i p Hi Hp).
    rewrite (onAnimate_color dt a i p Hi Hp), Hout.
    apply lookup_lt_is_Some_2 in Hc. destruct Hc as [c Hc]. rewrite Hc.
    rewrite (stepParticle_collapsed_once p Hout) by (apply Rabs_le; lra).
    split; reflexivity. }
  split; [exact Hstep|].
  intros g dts dt i p Hi Hp Hout.
  destruct (onCreate_created g) as (_ & Hlc & _).
  destruct (frames_lengths dts (fst (onCreate g))) as [_ Hlen].
  pose proof (frames_within dts (fst (onCreate g)) normalize_bound
                (onCreate_within g)) as Hb.
  rewrite Forall_lookup in Hb.
  apply Hstep; try assumption.
  - rewrite Hlen, Hlc. exact Hi.
  - exact (Hb i p Hp).
Qed.

(** C1 for a cloud of particles at [(9.995, 0, 0)], which the drift
    carries to [(10.005, 0, 0)]. *)
Lemma boundary_collapse_witness :
  vertices (pointMesh (onAnimate 1 (cloudOf (Vec3f.mk 9.995 0 0)))) !! 0%nat =
    Some (Vec3f.scale (@moved idealFramework (Vec3f.mk 9.995 0 0)) 0.000001) /\
  colors (pointMesh (onAnimate 1 (cloudOf (Vec3f.mk 9.995 0 0)))) !! 0%nat =
    Some (@HSV idealFramework
            (fmod (ellapsedTime (onAnimate 1 (cloudOf (Vec3f.mk 9.995 0 0))) * 0.05)
               1.0) 1.0 1.0).
Proof.
  refine (proj1 (@boundary_collapse idealFramework ideal_normalize_bound)
            (cloudOf (Vec3f.mk 9.995 0 0)) 1 0%nat (Vec3f.mk 9.995 0 0)
            N_positive (cloudOf_vertex _ 0%nat N_positive) _ _ _).
  - unfold cloudOf. cbn [pointMesh colors]. rewrite length_replicate.
    exact N_positive.
  - unfold withinBounds. cbn [Vec3f.x Vec3f.y Vec3f.z].
    rewrite Rabs_R0. rewrite Rabs_right by lra. lra.
  - left. rewrite ideal_moved_axis by lra. cbn [Vec3f.x].
    rewrite Rabs_right; lra.
Defined.

(** C2: for a particle whose step triggers no collapse (no component of
    the moved position is outside the boundary), the new position is the
    old one plus the drift; when the old position is not the origin
    its distance from the origin grows by exactly [0.01], and from the
    origin the distance does not decrease.  [normalize] is assumed to
    rescale every non-zero vector to the requested length. *)
Theorem drift_increases_distance {F : Framework}
    (normalize_nonzero : forall s v, Vec3f.mag v <> 0 ->
       normalize s v = Vec3f.scale v (s / Vec3f.mag v))
    (a : AlloApp) (dt : double) (i : nat) (p : Vec3f.t) :
  (i < N)%nat ->
  vertices (pointMesh a) !! i = Some p ->
  withinBounds 10.0 (Vec3f.add p (normalize 0.01 p)) ->
  exists p' : Vec3f.t,
    vertices (pointMesh (onAnimate dt a)) !! i = Some p' /\
    p' = Vec3f.add p (normalize 0.01 p) /\
    (p <> Vec3f.zero ->
       Vec3f.mag p' = Vec3f.mag p + 0.01 /\ Vec3f.mag p < Vec3f.mag p') /\
    (p = Vec3f.zero -> Vec3f.mag p <= Vec3f.mag p').
Proof.
  intros Hi Hp Hquiet. apply stepParticle_within_quiet in Hquiet.
  exists (moved p).
  rewrite (onAnimate_vertex dt a i p Hi Hp), (stepParticle_quiet p Hquiet).
  split; [reflexivity|]. split; [reflexivity|]. split.
  - intros Hnz. rewrite (moved_distance p normalize_nonzero Hnz). lra.
  - intros ->. rewrite Vec3fFacts.mag_zero. apply Vec3fFacts.mag_nonneg.
Qed.

(** C2 for a cloud of particles at [(5, 0, 0)] and the ideal [normalize]. *)
Lemma drift_increases_distance_witness :
  exists p' : Vec3f.t,
    vertices (pointMesh (onAnimate 1 (cloudOf (Vec3f.mk 5 0 0)))) !! 0%nat = Some p' /\
    p' = Vec3f.add (Vec3f.mk 5 0 0) (@normalize idealFramework 0.01 (Vec3f.mk 5 0 0)) /\
    (Vec3f.mk 5 0 0 <> Vec3f.zero ->
       Vec3f.mag p' = Vec3f.mag (Vec3f.mk 5 0 0) + 0.01 /\
       Vec3f.mag (Vec3f.mk 5 0 0) < Vec3f.mag p') /\
    (Vec3f.mk 5 0 0 = Vec3f.zero -> Vec3f.mag (Vec3f.mk 5 0 0) <= Vec3f.mag p').
Proof.
  refine (@drift_increases_distance idealFramework ideal_normalize_nonzero
            (cloudOf (Vec3f.mk 5 0 0)) 1 0 (Vec3f.mk 5 0 0)
            N_positive (cloudOf_vertex _ 0 N_positive) _).
  change (withinBounds 10.0 (@moved idealFramework (Vec3f.mk 5 0 0))).
  rewrite ideal_moved_axis by lra. unfold withinBounds. cbn [Vec3f.x Vec3f.y Vec3f.z].
  rewrite Rabs_R0. rewrite Rabs_right by lra. lra.
Defined.

(** C6: the positions after one step do not depend on the time delta; and
    the colour of a particle whose step triggers no collapse does not
    either. *)
Theorem positions_independent_of_dt {F : Framework} (a : AlloApp)
    (dt1 dt2 : double) :
  vertices (pointMesh (onAnimate dt1 a)) = vertices (pointMesh (onAnimate dt2 a)) /\
  (forall (i : nat) (p : Vec3f.t),
     vertices (pointMesh a) !! i = Some p ->
     withinBounds 10.0 (Vec3f.add p (normalize 0.01 p)) ->
     colors (pointMesh (onAnimate dt1 a)) !! i =
     colors (pointMesh (onAnimate dt2 a)) !! i).
Proof.
  split.
  - apply list_eq. intros k. rewrite !onAnimate_mesh, !animateLoop_vertices.
    reflexivity.
  - intros i p Hp Hquiet. apply stepParticle_within_quiet in Hquiet.
    rewrite !onAnimate_mesh, !animateLoop_colors, Hp, Hquiet.
    reflexivity.
Qed.

(** C9: if every component of every position is at most 10.0 in absolute
    value before a step, the same holds after it; hence it holds after any
    number of frames from the created state.  [normalize] is assumed never
    to return a vector longer than the requested length. *)
Theorem positions_stay_bounded {F : Framework}
    (normalize_bound : forall s v, 0 <= s -> Vec3f.mag (normalize s v) <= s) :
  (forall (a : AlloApp) (dt : double),
     Forall (withinBounds 10.0) (vertices (pointMesh a)) ->
     Forall (withinBounds 10.0) (vertices (pointMesh (onAnimate dt a)))) /\
  (forall (g : Rng) (dts : list double),
     Forall (withinBounds 10.0)
       (vertices (pointMesh (frames dts (fst (onCreate g)))))).
Proof.
  split.
  - intros a dt. apply onAnimate_within, normalize_bound.
  - intros g dts. apply frames_within; [exact normalize_bound|].
    apply onCreate_within.
Qed.

(** C9 for two frames from the created state and the ideal [normalize]. *)
Lemma positions_stay_bounded_witness :
  Forall (withinBounds 10.0)
    (vertices (pointMesh (frames [1; 1] (fst (@onCreate idealFramework zeroRng))))).
Proof.
  exact (proj2 (@positions_stay_bounded idealFramework ideal_normalize_bound)
           zeroRng [1; 1]).
Defined.

(** C3, as stated, fails on the range of the wrapped phase: the driver
    subtracts 3 once, and only when the phase exceeds 3.  On the first
    frame ([phase] is 0) with [dt = 7] the wrapped phase is 4 and
    [halfSize] is derived from it; with [dt = 3] the test [3 > 3] fails
    and the phase stays 3.  Neither is in [[0,3)]. *)
Lemma wrap_range_counterexample :
  phase (fst (@onCreate idealFramework zeroRng)) = 0 /\
  wrapPhase (phase (fst (@onCreate idealFramework zeroRng)) + 7) = 4 /\
  halfSize (onAnimate 7 (fst (@onCreate idealFramework zeroRng))) = 0.2 * 4 / 3 /\
  ~ (0 <= wrapPhase (phase (fst (@onCreate idealFramework zeroRng)) + 7) < 3) /\
  wrapPhase (phase (fst (@onCreate idealFramework zeroRng)) + 3) = 3 /\
  ~ (0 <= wrapPhase (phase (fst (@onCreate idealFramework zeroRng)) + 3) < 3).
Proof.
  assert (H0 : phase (fst (@onCreate idealFramework zeroRng)) = 0) by reflexivity.
  assert (H7 : wrapPhase (phase (fst (@onCreate idealFramework zeroRng)) + 7) = 4).
  { rewrite H0. unfold wrapPhase, wrapTaken.
    destruct (bool_decide_reflect (0 + 7 > 3)); lra. }
  assert (H3 : wrapPhase (phase (fst (@onCreate idealFramework zeroRng)) + 3) = 3).
  { rewrite H0. unfold wrapPhase, wrapTaken.
    destruct (bool_decide_reflect (0 + 3 > 3)); lra. }
  split; [exact H0|]. split; [exact H7|]. split; [|split; [|split]].
  - change (halfSize (onAnimate 7 (fst (@onCreate idealFramework zeroRng))))
      with (0.2 * wrapPhase (phase (fst (@onCreate idealFramework zeroRng)) + 7) / 3).
    rewrite H7. reflexivity.
  - rewrite H7. lra.
  - exact H3.
  - rewrite H3. lra.
Qed.

(** C3 (amended): in every frame the driver adds [dt] to [phase] and to
    [ellapsedTime], subtracts 3 from the phase once if it exceeds 3,
    derives [halfSize = 0.2 * wrappedPhase / 3], and only then overwrites
    [phase] with 1.0.  At draw time the [phase] uniform is [ellapsedTime],
    not the stored phase, and the [halfSize] uniform is the value derived
    before the override.  The wrapped phase lies in [[0,3)] when the
    accumulated phase lies in [[0,3)] or in [(3,6)]. *)
Theorem frame_uniforms {F : Framework} (a : AlloApp) (dt : double) :
  ellapsedTime (onAnimate dt a) = ellapsedTime a + dt /\
  wrapPhase (phase a + dt) =
    (if bool_decide (phase a + dt > 3) then phase a + dt - 3 else phase a + dt) /\
  halfSize (onAnimate dt a) = 0.2 * wrapPhase (phase a + dt) / 3 /\
  phase (onAnimate dt a) = 1.0 /\
  snd (tick dt a) = onDraw (onAnimate dt a) /\
  uniformAtDraw "phase" None (snd (tick dt a)) = Some (ellapsedTime a + dt) /\
  uniformAtDraw "halfSize" None (snd (tick dt a)) =
    Some (0.2 * wrapPhase (phase a + dt) / 3) /\
  (0 <= phase a + dt < 3 \/ 3 < phase a + dt < 6 ->
   0 <= wrapPhase (phase a + dt) < 3).
Proof.
  repeat split; try reflexivity; apply wrapPhase_range; assumption.
Qed.

(** C10: the stored phase is 1.0 at the end of every frame; so in every
    frame after the first, with [0 <= dt <= 2], the wrap branch is not
    taken and [halfSize] is [0.2 * (1.0 + dt) / 3], whatever came before. *)
Theorem phase_constant_after_frame {F : Framework} (a : AlloApp)
    (dt0 : double) (dts : list double) (dt : double) :
  0 <= dt <= 2 ->
  phase (onAnimate dt0 a) = 1.0 /\
  phase (frames (dt0 :: dts) a) = 1.0 /\
  wrapTaken (phase (frames (dt0 :: dts) a) + dt) = false /\
  halfSize (onAnimate dt (frames (dt0 :: dts) a)) = 0.2 * (1.0 + dt) / 3.
Proof.
  intros Hdt. split; [reflexivity|]. split; [apply frames_phase|].
  assert (Hw : wrapTaken (phase (frames (dt0 :: dts) a) + dt) = false).
  { rewrite frames_phase. unfold wrapTaken. apply bool_decide_eq_false. lra. }
  split; [exact Hw|].
  change (halfSize (onAnimate dt (frames (dt0 :: dts) a)))
    with (0.2 * wrapPhase (phase (frames (dt0 :: dts) a) + dt) / 3).
  unfold wrapPhase. rewrite Hw, frames_phase. reflexivity.
Qed.

(** C10 for a frame with [dt = 0.5] after frames with [dt = 7] and
    [dt = 0.25]. *)
Lemma phase_constant_after_frame_witness :
  halfSize (onAnimate 0.5 (frames [7; 0.25] (cloudOf farParticle))) =
  0.2 * (1.0 + 0.5) / 3.
Proof.
  refine (proj2 (proj2 (proj2
    (@phase_constant_after_frame idealFramework (cloudOf farParticle)
       7 [0.25] 0.5 _)))).
  lra.
Defined.

(** C4: one invocation of the geometry stage emits exactly one triangle
    strip of 4 vertices.  Their positions are the projection of the input
    position offset by [(-h,-h)], [(+h,-h)], [(-h,+h)], [(+h,+h)] in the
    first two axes, a square of side [2 h] centred on the input; their
    texture coordinates are [(0,0)], [(1,0)], [(0,1)], [(1,1)] in that
    order; all four carry the input colour. *)
Theorem geometry_emits_quad (m : mat4) (h : float) (v c : vec4)
    (junk : Geometry.Vertex) :
  Geometry.invoke m h v c junk =
    [[ Geometry.Build_Vertex
         (mat4_mul m (vec4_add v (Vec4 (- h) (- h) 0.0 0.0))) (Vec2 0.0 0.0) c;
       Geometry.Build_Vertex
         (mat4_mul m (vec4_add v (Vec4 h (- h) 0.0 0.0))) (Vec2 1.0 0.0) c;
       Geometry.Build_Vertex
         (mat4_mul m (vec4_add v (Vec4 (- h) h 0.0 0.0))) (Vec2 0.0 1.0) c;
       Geometry.Build_Vertex
         (mat4_mul m (vec4_add v (Vec4 h h 0.0 0.0))) (Vec2 1.0 1.0) c ]] /\
  vec4_sub (vec4_add v (Vec4 h (- h) 0.0 0.0)) (vec4_add v (Vec4 (- h) (- h) 0.0 0.0))
    = Vec4 (2 * h) 0 0 0 /\
  vec4_sub (vec4_add v (Vec4 (- h) h 0.0 0.0)) (vec4_add v (Vec4 (- h) (- h) 0.0 0.0))
    = Vec4 0 (2 * h) 0 0 /\
  vec4_add (vec4_add v (Vec4 (- h) (- h) 0.0 0.0)) (vec4_add v (Vec4 h h 0.0 0.0))
    = vec4_scale 2 v /\
  vec4_add (vec4_add v (Vec4 h (- h) 0.0 0.0)) (vec4_add v (Vec4 (- h) h 0.0 0.0))
    = vec4_scale 2 v /\
  vec4_add
    (vec4_add (mat4_mul m (vec4_add v (Vec4 (- h) (- h) 0.0 0.0)))
              (mat4_mul m (vec4_add v (Vec4 h (- h) 0.0 0.0))))
    (vec4_add (mat4_mul m (vec4_add v (Vec4 (- h) h 0.0 0.0)))
              (mat4_mul m (vec4_add v (Vec4 h h 0.0 0.0))))
    = vec4_scale 4 (mat4_mul m v).
Proof.
  split; [reflexivity|].
  destruct v as [x y z w], m as [[a0 a1 a2 a3] [b0 b1 b2 b3] [c0 c1 c2 c3] [d0 d1 d2 d3]].
  unfold vec4_sub, vec4_add, vec4_scale, mat4_mul, dot4. simpl.
  repeat split; f_equal; lra.
Qed.

(** * Further properties *)

(** ** AlphaMask *)

(** X1: for any dimensions the nested loops leave a buffer of [nx * ny]
    cells in which every cell has been written: cell [k] holds the sample
    of column [k mod nx] and row [k / nx], and the sample of [(i, j)] is
    found at [j * nx + i]. *)
Theorem mask_buffer_layout (nx ny : nat) :
  length (AlphaMask.fill nx ny) = (nx * ny)%nat /\
  (forall i j : nat, (i < nx)%nat -> (j < ny)%nat ->
     AlphaMask.fill nx ny !! (j * nx + i)%nat =
     Some (AlphaMask.sample nx ny i j)) /\
  (forall k : nat, (k < nx * ny)%nat ->
     AlphaMask.fill nx ny !! k =
     Some (AlphaMask.sample nx ny (k mod nx) (k / nx))).
Proof.
  split; [apply AlphaMaskFacts.fill_length|]. split.
  - intros i j. apply AlphaMaskFacts.fill_lookup.
  - intros k Hk.
    assert (Hnx : nx <> 0%nat) by (intros ->; lia).
    pose proof (Nat.div_mod k nx Hnx) as Hdm.
    pose proof (Nat.mod_upper_bound k nx Hnx) as Hm.
    assert (Hd : (k / nx < ny)%nat).
    { apply Nat.Div0.div_lt_upper_bound. lia. }
    rewrite Hdm at 1. rewrite (Nat.mul_comm nx).
    apply AlphaMaskFacts.fill_lookup; assumption.
Qed.

(** X2: the mask falls off with the distance from the centre, up to one
    unit of the [short] encoding: of two samples of the 256 x 256 buffer,
    the one whose exact coordinates are farther from the origin exceeds
    the other by at most 1, with every [float] result in the normal range
    rounded within the unit roundoff [2^-24] and [exp] returned within
    [2^-22]. *)
Theorem mask_radial_falloff (fl expf : R -> R) (i j i' j' : nat) (s s' : Z) :
  AlphaMaskRounded.roundsWithin AlphaMaskRounded.unitRoundoff fl ->
  AlphaMaskRounded.expWithin (4 * AlphaMaskRounded.unitRoundoff) expf ->
  AlphaMaskRounded.alpha fl expf !! (j * AlphaMask.Nx + i)%nat = Some s ->
  AlphaMaskRounded.alpha fl expf !! (j' * AlphaMask.Nx + i')%nat = Some s' ->
  (i < AlphaMask.Nx)%nat -> (j < AlphaMask.Ny)%nat ->
  (i' < AlphaMask.Nx)%nat -> (j' < AlphaMask.Ny)%nat ->
  AlphaMask.coord AlphaMask.Nx i * AlphaMask.coord AlphaMask.Nx i +
    AlphaMask.coord AlphaMask.Ny j * AlphaMask.coord AlphaMask.Ny j <=
  AlphaMask.coord AlphaMask.Nx i' * AlphaMask.coord AlphaMask.Nx i' +
    AlphaMask.coord AlphaMask.Ny j' * AlphaMask.coord AlphaMask.Ny j' ->
  (s' <= s + 1)%Z.
Proof.
  intros Hfl Hexp Hs Hs' Hi Hj Hi' Hj' Hr.
  rewrite AlphaMaskRoundedFacts.rounded_alpha_lookup in Hs by assumption.
  rewrite AlphaMaskRoundedFacts.rounded_alpha_lookup in Hs' by assumption.
  injection Hs as <-. injection Hs' as <-.
  apply AlphaMaskRoundedFacts.sample_order; try assumption.
  apply AlphaMaskRoundedFacts.exactIntensity_radius. exact Hr.
Qed.

(** X2 for the corner [(0, 0)] against the sample [(128, 128)], for the
    computation in which nothing rounds. *)
Lemma mask_radial_falloff_witness : (0 <= 32753 + 1)%Z.
Proof.
  refine (mask_radial_falloff (fun x => x) exp 128 128 0 0 32753 0
            AlphaMaskRoundedFacts.exact_rounds AlphaMaskRoundedFacts.exact_exp
            _ _ _ _ _ _ _);
    try (unfold AlphaMask.Nx, AlphaMask.Ny; lia).
  - rewrite AlphaMaskRoundedFacts.rounded_alpha_lookup
      by (unfold AlphaMask.Nx, AlphaMask.Ny; lia).
    rewrite AlphaMaskRoundedFacts.exact_sample.
    rewrite AlphaMaskValues.sample_center by lia. reflexivity.
  - rewrite AlphaMaskRoundedFacts.rounded_alpha_lookup
      by (unfold AlphaMask.Nx, AlphaMask.Ny; lia).
    rewrite AlphaMaskRoundedFacts.exact_sample.
    rewrite AlphaMaskValues.sample_corner by lia. reflexivity.
  - unfold AlphaMask.Nx, AlphaMask.Ny.
    rewrite AlphaMaskValues.coord_128, AlphaMaskValues.coord_first. lra.
Defined.

(** ** Frames *)


(** X3: the buffers are never resized: a frame leaves the number of
    vertices and of colours unchanged, creation builds exactly [N] of each,
    and so every state reached from creation has [N] vertices and [N]
    colours. *)
Theorem mesh_size_fixed {F : Framework} :
  (forall (a : AlloApp) (dts : list double),
     length (vertices (pointMesh (frames dts a))) = length (vertices (pointMesh a)) /\
     length (colors (pointMesh (frames dts a))) = length (colors (pointMesh a))) /\
  (forall (g : Rng) (dts : list double),
     length (vertices (pointMesh (frames dts (fst (onCreate g))))) = N /\
     length (colors (pointMesh (frames dts (fst (onCreate g))))) = N).
Proof.
  assert (Hframes : forall (a : AlloApp) (dts : list double),
     length (vertices (pointMesh (frames dts a))) = length (vertices (pointMesh a)) /\
     length (colors (pointMesh (frames dts a))) = length (colors (pointMesh a))).
  { intros a dts. revert a. induction dts as [|dt dts IH]; intros a.
    - split; reflexivity.
    - rewrite frames_cons. destruct (IH (onAnimate dt a)) as [Hv Hc].
      destruct (onAnimate_lengths dt a) as [Hv' Hc']. split; congruence. }
  split; [exact Hframes|].
  intros g dts. destruct (Hframes (fst (onCreate g)) dts) as [Hv Hc].
  destruct (onCreate_created g) as (Hlv & Hlc & _). split; congruence.
Qed.

(** X4: [ellapsedTime] accumulates the time deltas: after a sequence of
    frames it is the initial value plus their sum, the [phase] uniform of
    the next draw is that value, and with non-negative deltas it never
    decreases. *)
Theorem elapsed_time_accumulates {F : Framework} (a : AlloApp)
    (dts : list double) :
  ellapsedTime (frames dts a) = ellapsedTime a + totalTime dts /\
  uniformAtDraw "phase" None (onDraw (frames dts a)) =
    Some (ellapsedTime a + totalTime dts) /\
  (Forall (fun dt => 0 <= dt) dts -> ellapsedTime a <= ellapsedTime (frames dts a)).
Proof.
  assert (Hsum : forall (b : AlloApp) (l : list double),
            ellapsedTime (frames l b) = ellapsedTime b + totalTime l).
  { intros b l. revert b. induction l as [|dt l IH]; intros b.
    - simpl. unfold totalTime. simpl. lra.
    - rewrite frames_cons, IH. unfold totalTime. simpl. lra. }
  split; [apply Hsum|]. split.
  - change (uniformAtDraw "phase" None (onDraw (frames dts a)))
      with (Some (ellapsedTime (frames dts a))).
    rewrite Hsum. reflexivity.
  - intros Hpos. rewrite Hsum.
    assert (0 <= totalTime dts); [|lra].
    induction Hpos as [|dt l Hdt _ IH]; unfold totalTime in *; simpl; lra.
Qed.

(** X5: from the second frame on, a frame with a non-negative time delta
    leaves a positive [halfSize]; it is below 0.21 when the delta is at
    most 5, and above 0.06 when the delta is at most 2. *)
Theorem half_size_range {F : Framework} (a : AlloApp) (dt0 : double)
    (dts : list double) (dt : double) :
  0 <= dt ->
  0 < halfSize (onAnimate dt (frames (dt0 :: dts) a)) /\
  (dt <= 5 -> halfSize (onAnimate dt (frames (dt0 :: dts) a)) < 0.21) /\
  (dt <= 2 -> 0.06 < halfSize (onAnimate dt (frames (dt0 :: dts) a))).
Proof.
  intros Hdt. rewrite onAnimate_halfSize, frames_phase.
  unfold wrapPhase, wrapTaken.
  destruct (bool_decide_reflect (1.0 + dt > 3)); repeat split; intros; lra.
Qed.

(** X5 for a frame of two and a half seconds after one earlier frame. *)
Lemma half_size_range_witness :
  0 < halfSize (onAnimate 2.5 (frames [1] (cloudOf farParticle))).
Proof.
  refine (proj1 (@half_size_range idealFramework (cloudOf farParticle)
                   1 [] 2.5 _)).
  lra.
Defined.

(** ** Particles over many frames *)

Section ParticleProperties.
Context {F : Framework}.
Hypothesis normalize_nonzero : forall s v, Vec3f.mag v <> 0 ->
  normalize s v = Vec3f.scale v (s / Vec3f.mag v).

(** The drift is radial: the moved position is the old one stretched. *)
Lemma moved_radial (p : Vec3f.t) :
  p <> Vec3f.zero ->
  moved p = Vec3f.scale p (1 + 0.01 / Vec3f.mag p) /\
  1 < 1 + 0.01 / Vec3f.mag p.
Proof.
  intros Hp. apply Vec3fFacts.mag_ne_0 in Hp.
  pose proof (Vec3fFacts.mag_nonneg p) as Hpos.
  assert (0 < / Vec3f.mag p) by (apply Rinv_0_lt_compat; lra).
  split.
  - unfold moved. rewrite normalize_nonzero by exact Hp.
    apply Vec3fFacts.add_scale.
  - unfold Rdiv. nra.
Qed.

Lemma normalize_length (p : Vec3f.t) :
  p <> Vec3f.zero -> Vec3f.mag (normalize 0.01 p) = 0.01.
Proof.
  intros Hp. apply Vec3fFacts.mag_ne_0 in Hp.
  pose proof (Vec3fFacts.mag_nonneg p) as Hpos.
  assert (0 < / Vec3f.mag p) by (apply Rinv_0_lt_compat; lra).
  rewrite normalize_nonzero by exact Hp.
  rewrite Vec3fFacts.mag_scale by (unfold Rdiv; nra).
  field. exact Hp.
Qed.

Lemma scale_nonzero (p : Vec3f.t) (c : float) :
  p <> Vec3f.zero -> 0 < c -> Vec3f.scale p c <> Vec3f.zero.
Proof.
  intros Hp Hc Hz. apply Vec3fFacts.mag_ne_0 in Hp.
  pose proof (Vec3fFacts.mag_nonneg p) as Hpos.
  assert (Hm : Vec3f.mag (Vec3f.scale p c) = 0) by (rewrite Hz; apply Vec3fFacts.mag_zero).
  rewrite Vec3fFacts.mag_scale in Hm by lra. nra.
Qed.

(** One step stretches or shrinks the position along its ray. *)
Lemma stepParticle_radial (p : Vec3f.t) :
  p <> Vec3f.zero ->
  exists c : float, 0 < c /\ fst (stepParticle 10.0 p) = Vec3f.scale p c.
Proof.
  intros Hp. destruct (moved_radial p Hp) as [Hm Hc].
  destruct (snd (stepParticle 10.0 p)) eqn:Hs.
  - destruct (stepParticle_collapsed p Hs) as (k & _ & Hk).
    exists ((1 + 0.01 / Vec3f.mag p) * 0.000001 ^ k). split.
    + apply Rmult_lt_0_compat; [lra|]. apply pow_lt. lra.
    + rewrite Hk, Hm. apply Vec3fFacts.scale_scale.
  - exists (1 + 0.01 / Vec3f.mag p). split; [lra|].
    rewrite (stepParticle_quiet p Hs). exact Hm.
Qed.

Lemma frames_radial (dts : list double) (a : AlloApp) (i : nat) (p : Vec3f.t) :
  (i < N)%nat -> vertices (pointMesh a) !! i = Some p -> p <> Vec3f.zero ->
  exists c : float, 0 < c /\
    vertices (pointMesh (frames dts a)) !! i = Some (Vec3f.scale p c).
Proof.
  intros Hi. revert a p. induction dts as [|dt dts IH]; intros a p Hp Hnz.
  - exists 1. split; [lra|]. simpl. rewrite Hp. f_equal.
    destruct p. unfold Vec3f.scale. simpl. f_equal; ring.
  - destruct (stepParticle_radial p Hnz) as (c1 & Hc1 & Hstep).
    pose proof (onAnimate_vertex dt a i p Hi Hp) as Hv. rewrite Hstep in Hv.
    destruct (IH (onAnimate dt a) _ Hv (scale_nonzero p c1 Hnz Hc1))
      as (c2 & Hc2 & Hfin).
    exists (c1 * c2). split; [nra|].
    rewrite frames_cons, Hfin, Vec3fFacts.scale_scale. reflexivity.
Qed.

(** One step keeps a position away from the origin and within bounds. *)
Lemma stepParticle_away (p : Vec3f.t) :
  awayFromOrigin p -> awayFromOrigin (fst (stepParticle 10.0 p)).
Proof.
  intros [Hlo Hb].
  assert (Hnz : p <> Vec3f.zero).
  { intros ->. rewrite Vec3fFacts.mag_zero in Hlo. lra. }
  pose proof (normalize_length p Hnz) as Hlen.
  assert (Hle : Vec3f.mag (normalize 0.01 p) <= 0.01) by lra.
  split; [|apply stepParticle_within; assumption].
  destruct (snd (stepParticle 10.0 p)) eqn:Hs.
  - destruct (moved_bounds p Hle Hb) as (Hx & Hy & Hz).
    rewrite (stepParticle_collapsed_once p Hs) by (apply Rabs_le; lra).
    rewrite Vec3fFacts.mag_scale by lra.
    apply stepParticle_fired in Hs.
    destruct (Vec3fFacts.components_le_mag (moved p)) as (Cx & Cy & Cz).
    lra.
  - rewrite (stepParticle_quiet p Hs), (moved_distance p normalize_nonzero Hnz).
    lra.
Qed.

Lemma onAnimate_away (dt : double) (a : AlloApp) :
  Forall awayFromOrigin (vertices (pointMesh a)) ->
  Forall awayFromOrigin (vertices (pointMesh (onAnimate dt a))).
Proof.
  intros Hb. rewrite Forall_lookup in Hb |- *. intros i q Hq.
  rewrite onAnimate_mesh, animateLoop_vertices in Hq.
  destruct (decide (i < N)%nat).
  - destruct (vertices (pointMesh a) !! i) as [p|] eqn:Hp; [|discriminate].
    simpl in Hq. injection Hq as <-.
    apply stepParticle_away. exact (Hb i p Hp).
  - exact (Hb i q Hq).
Qed.

Lemma frames_away (dts : list double) (a : AlloApp) :
  Forall awayFromOrigin (vertices (pointMesh a)) ->
  Forall awayFromOrigin (vertices (pointMesh (frames dts a))).
Proof.
  revert a. induction dts as [|dt dts IH]; intros a Hb; [exact Hb|].
  apply (IH (onAnimate dt a)), onAnimate_away, Hb.
Qed.

Lemma onCreate_away (g : Rng) :
  Forall awayFromOrigin (vertices (pointMesh (fst (onCreate g)))).
Proof.
  destruct (onCreate_created g) as (_ & _ & Hv & _).
  eapply Forall_impl; [exact Hv|]. intros p Hm. split.
  - rewrite Hm. lra.
  - apply sphere_within, Hm.
Qed.

(** A particle at distance [d] whose colour is [c] stays quiet for as
    long as [d + 0.01 k] does not exceed the boundary. *)
Lemma frames_quiet (dts : list double) (a : AlloApp) (i : nat)
    (p : Vec3f.t) (c : Color) :
  (i < N)%nat ->
  vertices (pointMesh a) !! i = Some p -> colors (pointMesh a) !! i = Some c ->
  0 < Vec3f.mag p ->
  Vec3f.mag p + 0.01 * INR (length dts) <= 10.0 ->
  exists q : Vec3f.t,
    vertices (pointMesh (frames dts a)) !! i = Some q /\
    Vec3f.mag q = Vec3f.mag p + 0.01 * INR (length dts) /\
    colors (pointMesh (frames dts a)) !! i = Some c.
Proof.
  intros Hi. revert a p. induction dts as [|dt dts IH]; intros a p Hp Hc Hpos Hk.
  - exists p. simpl. repeat split; try assumption. lra.
  - change (length (dt :: dts)) with (S (length dts)) in *.
    rewrite S_INR in *.
    pose proof (pos_INR (length dts)) as Hn.
    assert (Hnz : p <> Vec3f.zero).
    { intros ->. rewrite Vec3fFacts.mag_zero in Hpos. lra. }
    pose proof (moved_distance p normalize_nonzero Hnz) as Hd.
    assert (Hw : withinBounds 10.0 (moved p)).
    { destruct (Vec3fFacts.components_le_mag (moved p)) as (Cx & Cy & Cz).
      unfold withinBounds. rewrite Hd in Cx, Cy, Cz. lra. }
    apply stepParticle_within_quiet in Hw.
    pose proof (onAnimate_vertex dt a i p Hi Hp) as Hv.
    rewrite (stepParticle_quiet p Hw) in Hv.
    pose proof (onAnimate_color dt a i p Hi Hp) as Hcol.
    rewrite Hw, Hc in Hcol.
    destruct (IH (onAnimate dt a) (moved p) Hv Hcol) as (q & Hq & Hmq & Hcq);
      [lra|lra|].
    exists q. rewrite frames_cons. repeat split; try assumption. lra.
Qed.
End ParticleProperties.

(** X6: in every state reached from creation, every particle is farther
    than [0.00001] from the origin and within the boundary on every axis;
    in particular [normalize] is never applied to the zero vector.
    [normalize] is assumed to rescale every non-zero vector to the
    requested length. *)
Theorem particles_away_from_origin {F : Framework}
    (normalize_nonzero : forall s v, Vec3f.mag v <> 0 ->
       normalize s v = Vec3f.scale v (s / Vec3f.mag v))
    (g : Rng) (dts : list double) :
  Forall (fun p => 0.00001 < Vec3f.mag p /\ withinBounds 10.0 p /\ p <> Vec3f.zero)
    (vertices (pointMesh (frames dts (fst (onCreate g))))).
Proof.
  pose proof (frames_away normalize_nonzero dts _ (onCreate_away g)) as H.
  eapply Forall_impl; [exact H|]. intros p [Hlo Hb].
  repeat split; try assumption; try apply Hb.
  intros ->. rewrite Vec3fFacts.mag_zero in Hlo. lra.
Qed.

(** X6 for three frames from the state created with [zeroRng]. *)
Lemma particles_away_from_origin_witness :
  Forall (fun p => 0.00001 < Vec3f.mag p /\ withinBounds 10.0 p /\ p <> Vec3f.zero)
    (vertices (pointMesh (frames [1; 2; 3] (fst (@onCreate idealFramework zeroRng))))).
Proof.
  exact (@particles_away_from_origin idealFramework ideal_normalize_nonzero
           zeroRng [1; 2; 3]).
Defined.

(** X7: a particle never leaves the ray from the origin through its
    position: after any sequence of frames the position of a particle that
    was at a non-zero [p] is [p] multiplied by a positive factor, whether
    it drifted or collapsed.  Same assumption on [normalize]. *)
Theorem direction_preserved {F : Framework}
    (normalize_nonzero : forall s v, Vec3f.mag v <> 0 ->
       normalize s v = Vec3f.scale v (s / Vec3f.mag v))
    (a : AlloApp) (dts : list double) (i : nat) (p : Vec3f.t) :
  (i < N)%nat -> vertices (pointMesh a) !! i = Some p -> p <> Vec3f.zero ->
  exists c : float, 0 < c /\
    vertices (pointMesh (frames dts a)) !! i = Some (Vec3f.scale p c).
Proof. apply frames_radial, normalize_nonzero. Qed.

(** X7 for the cloud at [farParticle] over two frames. *)
Lemma direction_preserved_witness :
  exists c : float, 0 < c /\
    vertices (pointMesh (frames [1; 1] (cloudOf farParticle))) !! 0%nat =
    Some (Vec3f.scale farParticle c).
Proof.
  refine (@direction_preserved idealFramework ideal_normalize_nonzero
            (cloudOf farParticle) [1; 1] 0 farParticle N_positive
            (cloudOf_vertex _ 0 N_positive) _).
  unfold farParticle, Vec3f.zero. intros H. injection H as H _. lra.
Defined.

(** X8: for the first 900 frames after creation no particle collapses:
    after [k <= 900] frames every particle is at distance [0.8 + 0.01 k]
    from the origin and still has its initial colour, whatever the time
    deltas.  Same assumption on [normalize]. *)
Theorem first_frames_quiet {F : Framework}
    (normalize_nonzero : forall s v, Vec3f.mag v <> 0 ->
       normalize s v = Vec3f.scale v (s / Vec3f.mag v))
    (g : Rng) (dts : list double) (i : nat) :
  (length dts <= 900)%nat -> (i < N)%nat ->
  exists q : Vec3f.t,
    vertices (pointMesh (frames dts (fst (onCreate g)))) !! i = Some q /\
    Vec3f.mag q = 0.8 + 0.01 * INR (length dts) /\
    colors (pointMesh (frames dts (fst (onCreate g)))) !! i = Some (HSV 0.7 1.0 1.0).
Proof.
  intros Hk Hi. destruct (onCreate_created g) as (Hlv & Hlc & Hv & Hc).
  destruct (lookup_lt_is_Some_2 (vertices (pointMesh (fst (onCreate g)))) i)
    as [p Hp]; [lia|].
  destruct (lookup_lt_is_Some_2 (colors (pointMesh (fst (onCreate g)))) i)
    as [c Hcl]; [lia|].
  rewrite Forall_lookup in Hv. rewrite Forall_lookup in Hc.
  pose proof (Hv i p Hp) as Hm. pose proof (Hc i c Hcl) as ->.
  assert (Hn : INR (length dts) <= 900).
  { assert (H900 : INR 900 = 900) by (rewrite INR_IZR_INZ; reflexivity).
    apply le_INR in Hk. lra. }
  pose proof (pos_INR (length dts)) as Hn0.
  destruct (frames_quiet normalize_nonzero dts _ i p _ Hi Hp Hcl)
    as (q & Hq & Hmq & Hcq); [lra|lra|].
  exists q. rewrite Hm in Hmq. repeat split; assumption.
Qed.

(** X8 for two frames from the state created with [zeroRng]. *)
Lemma first_frames_quiet_witness :
  exists q : Vec3f.t,
    vertices (pointMesh (frames [1; 1] (fst (@onCreate idealFramework zeroRng))))
      !! 0%nat = Some q /\
    Vec3f.mag q = 0.8 + 0.01 * INR (length [1; 1]) /\
    colors (pointMesh (frames [1; 1] (fst (@onCreate idealFramework zeroRng))))
      !! 0%nat = Some (@HSV idealFramework 0.7 1.0 1.0).
Proof.
  refine (@first_frames_quiet idealFramework ideal_normalize_nonzero
            zeroRng [1; 1] 0 _ N_positive).
  simpl. lia.
Defined.

(** ** Colours *)

(** X9: [fmod] by a positive divisor returns the dividend minus a whole
    multiple of the divisor, smaller than the divisor in absolute value
    and with the sign of the dividend.  So the hue a collapse writes,
    [fmod(ellapsedTime * 0.05, 1.0)], lies in [[0,1)] when the elapsed
    time is non-negative and in [(-1,0]] when it is negative. *)
Theorem fmod_range (a b : double) :
  0 < b ->
  (exists k : Z, a = IZR k * b + fmod a b) /\
  (0 <= a -> 0 <= fmod a b < b) /\
  (a <= 0 -> - b < fmod a b <= 0) /\
  (0 <= a -> 0 <= fmod (a * 0.05) 1.0 < 1) /\
  (a <= 0 -> -1 < fmod (a * 0.05) 1.0 <= 0).
Proof.
  intros Hb.
  assert (Hgen : forall (x y : R), 0 < y ->
            (0 <= x -> 0 <= fmod x y < y) /\ (x <= 0 -> - y < fmod x y <= 0)).
  { intros x y Hy. unfold fmod.
    assert (Hq : x = x / y * y) by (field; lra).
    assert (Hinv : 0 < / y) by (apply Rinv_0_lt_compat; exact Hy).
    split; intros Hx.
    - assert (H0 : 0 <= x / y) by (unfold Rdiv; nra).
      destruct (truncate_floor (x / y) H0) as [_ [Hlo Hhi]].
      set (q := x / y) in *. set (t := IZR (truncate q)) in *.
      split; nra.
    - destruct (Rle_lt_or_eq_dec x 0 Hx) as [Hlt| ->].
      + assert (H0 : x / y < 0) by (unfold Rdiv; nra).
        destruct (truncate_ceil (x / y) H0) as [_ [Hlo Hhi]].
        set (q := x / y) in *. set (t := IZR (truncate q)) in *.
        split; nra.
      + assert (H0 : 0 <= 0 / y) by (unfold Rdiv; lra).
        destruct (truncate_floor (0 / y) H0) as [_ [Hlo Hhi]].
        replace (0 / y) with 0 in * by (unfold Rdiv; ring).
        assert (truncate 0 = 0%Z) as ->.
        { apply truncate_bounds; simpl; lra. }
        simpl. split; lra. }
  split; [|split; [|split; [|split]]].
  - exists (truncate (a / b)). unfold fmod. ring.
  - apply (proj1 (Hgen a b Hb)).
  - apply (proj2 (Hgen a b Hb)).
  - intros Ha.
    assert (H1 : 0 < 1.0) by lra. assert (H2 : 0 <= a * 0.05) by lra.
    pose proof (proj1 (Hgen (a * 0.05) 1.0 H1) H2). lra.
  - intros Ha.
    assert (H1 : 0 < 1.0) by lra. assert (H2 : a * 0.05 <= 0) by lra.
    pose proof (proj2 (Hgen (a * 0.05) 1.0 H1) H2). lra.
Qed.

(** X9 for [fmod(7.5, 2)]. *)
Lemma fmod_range_witness : 0 <= fmod 7.5 2 < 2.
Proof.
  refine (proj1 (proj2 (fmod_range 7.5 2 _)) _); lra.
Defined.

(** X10: a frame changes a colour only by writing the collapse colour of
    that frame: every colour after the frame is the colour before it or
    [HSV(fmod(ellapsedTime * 0.05, 1.0), 1, 1)]; a particle whose moved
    position is within the boundary keeps its colour, and so does every
    index from [N] on. *)
Theorem colours_after_frame {F : Framework} (a : AlloApp) (dt : double)
    (i : nat) :
  (forall c : Color,
     colors (pointMesh (onAnimate dt a)) !! i = Some c ->
     colors (pointMesh a) !! i = Some c \/
     c = HSV (fmod (ellapsedTime (onAnimate dt a) * 0.05) 1.0) 1.0 1.0) /\
  (forall p : Vec3f.t,
     vertices (pointMesh a) !! i = Some p ->
     withinBounds 10.0 (Vec3f.add p (normalize 0.01 p)) ->
     colors (pointMesh (onAnimate dt a)) !! i = colors (pointMesh a) !! i) /\
  ((N <= i)%nat ->
     colors (pointMesh (onAnimate dt a)) !! i = colors (pointMesh a) !! i).
Proof.
  rewrite onAnimate_mesh, animateLoop_colors. split; [|split].
  - intros c. destruct (vertices (pointMesh a) !! i) as [p|]; [|tauto].
    destruct (decide _); [|tauto].
    destruct (snd (stepParticle 10.0 p)); [|tauto].
    destruct (colors (pointMesh a) !! i); simpl; [|discriminate].
    intros Hc. injection Hc as <-. right. reflexivity.
  - intros p Hp Hw. apply stepParticle_within_quiet in Hw. rewrite Hp, Hw.
    destruct (decide _); reflexivity.
  - intros Hi. destruct (vertices (pointMesh a) !! i); [|reflexivity].
    destruct (decide _); [lia|reflexivity].
Qed.

(** ** Creation and the generator *)

Section SamplingFacts.
Context {F : Framework}.

Lemma advanceRng_S (k : nat) (g : Rng) :
  advanceRng (S k) g = snd (uniform 6.2831853 (advanceRng k g)).
Proof. reflexivity. Qed.

Lemma createParticle_samples (m : Mesh) (g : Rng) (k : nat) :
  createParticle (m, advanceRng k g) =
  ({| vertices := vertices m ++ [spherePoint (sampleAt k g) (sampleAt (S k) g)];
      colors := colors m ++ [HSV 0.7 1.0 1.0] |},
   advanceRng (S (S k)) g).
Proof.
  unfold createParticle, sampleAt. rewrite !advanceRng_S.
  destruct (uniform 6.2831853 (advanceRng k g)) as [horizontal g1].
  simpl. destruct (uniform 6.2831853 g1) as [vertical g2]. reflexivity.
Qed.

(** The creation loop after [n] iterations. *)
Lemma createLoop_samples (n : nat) (g : Rng) :
  snd (forLoop n (fun _ => createParticle) (emptyMesh, g)) = advanceRng (2 * n) g /\
  length (vertices (fst (forLoop n (fun _ => createParticle) (emptyMesh, g)))) = n /\
  forall i : nat, (i < n)%nat ->
    vertices (fst (forLoop n (fun _ => createParticle) (emptyMesh, g))) !! i =
    Some (spherePoint (sampleAt (2 * i) g) (sampleAt (2 * i + 1) g)).
Proof.
  induction n as [|n (IHg & IHl & IHv)].
  - rewrite forLoop_0. simpl. repeat split. intros i Hi. lia.
  - rewrite forLoop_S.
    destruct (forLoop n (fun _ => createParticle) (emptyMesh, g)) as [m g'].
    cbn [fst snd] in IHg, IHl, IHv. subst g'. rewrite createParticle_samples.
    cbn [fst snd vertices colors].
    split; [|split].
    + replace (2 * S n)%nat with (S (S (2 * n))) by lia. reflexivity.
    + rewrite length_app, IHl. simpl. lia.
    + intros i Hi. destruct (decide (i = n)) as [->|Hne].
      * rewrite lookup_app_r by lia. rewrite IHl, Nat.sub_diag.
        replace (2 * n + 1)%nat with (S (2 * n)) by lia. reflexivity.
      * rewrite lookup_app_l by lia. apply IHv. lia.
Qed.
End SamplingFacts.

(** X11: creation draws two samples per particle, in order: particle [i]
    is built from draw [2 i] as the horizontal angle and draw [2 i + 1] as
    the vertical angle, and the generator is left after [2 N] draws. *)
Theorem creation_consumes_samples_in_order {F : Framework} (g : Rng) :
  snd (onCreate g) = advanceRng (2 * N) g /\
  (forall i : nat, (i < N)%nat ->
     vertices (pointMesh (fst (onCreate g))) !! i =
     Some (spherePoint (sampleAt (2 * i) g) (sampleAt (2 * i + 1) g))).
Proof.
  pose proof (createLoop_samples N g) as H.
  unfold onCreate, createMesh. cbv zeta. revert H.
  generalize (forLoop N (fun _ => createParticle) (emptyMesh, g)).
  intros [m g'] (Hg & _ & Hv). cbn [fst snd pointMesh] in *.
  split; assumption.
Qed.

(** ** The shader pipeline *)

(** X12: the [phase] uniform has no effect on what is drawn: the vertex
    stage passes the stored position through the model-view matrix and the
    colour unchanged for every value of [phase], so the quad that the
    geometry stage emits for a point is the same for any two values and is
    centred on the projected position. *)
Theorem phase_uniform_unused (mv proj : mat4) (h phase1 phase2 : float)
    (pos : Vec3f.t) (col : vec4) (junk : Geometry.Vertex) :
  VertexStage.gl_Position (VertexStage.main mv phase1 pos col) =
    mat4_mul mv (Vec4 (Vec3f.x pos) (Vec3f.y pos) (Vec3f.z pos) 1) /\
  VertexStage.color (VertexStage.main mv phase1 pos col) = col /\
  renderPoint mv proj h phase1 pos col junk =
    renderPoint mv proj h phase2 pos col junk /\
  renderPoint mv proj h phase1 pos col junk =
    Geometry.invoke proj h
      (mat4_mul mv (Vec4 (Vec3f.x pos) (Vec3f.y pos) (Vec3f.z pos) 1)) col junk.
Proof.
  assert (H1 : (1.0 : R) = 1) by lra.
  unfold renderPoint, VertexStage.main. cbn [VertexStage.gl_Position VertexStage.color].
  rewrite H1. repeat split; reflexivity.
Qed.

(** X13: a particle that was within the boundary and crosses it is put
    back next to the origin: its new position is the moved position times
    [0.000001], at a distance between [0.00001] and [0.00002].
    [normalize] is assumed never to return a vector longer than the
    requested length. *)
Theorem collapse_lands_near_origin {F : Framework}
    (normalize_bound : forall s v, 0 <= s -> Vec3f.mag (normalize s v) <= s)
    (a : AlloApp) (dt : double) (i : nat) (p : Vec3f.t) :
  (i < N)%nat ->
  vertices (pointMesh a) !! i = Some p ->
  withinBounds 10.0 p ->
  Rabs (Vec3f.x (moved p)) > 10.0 \/ Rabs (Vec3f.y (moved p)) > 10.0 \/
    Rabs (Vec3f.z (moved p)) > 10.0 ->
  exists q : Vec3f.t,
    vertices (pointMesh (onAnimate dt a)) !! i = Some q /\
    q = Vec3f.scale (moved p) 0.000001 /\
    0.00001 < Vec3f.mag q < 0.00002.
Proof.
  intros Hi Hp Hb Hout.
  assert (Hle : Vec3f.mag (normalize 0.01 p) <= 0.01) by (apply normalize_bound; lra).
  destruct (moved_bounds p Hle Hb) as (Hx & Hy & Hz).
  destruct (Vec3fFacts.components_le_mag (moved p)) as (Cx & Cy & Cz).
  pose proof (Vec3fFacts.mag_nonneg (moved p)) as Hpos.
  pose proof (Vec3fFacts.mag_sqr (moved p)) as Hsq. unfold Vec3f.magSqr in Hsq.
  assert (Hfired := proj2 (stepParticle_fired p) Hout).
  exists (Vec3f.scale (moved p) 0.000001).
  rewrite (onAnimate_vertex dt a i p Hi Hp).
  rewrite (stepParticle_collapsed_once p Hfired) by (apply Rabs_le; lra).
  split; [reflexivity|]. split; [reflexivity|].
  rewrite Vec3fFacts.mag_scale by lra.
  assert (Hup : Vec3f.mag (moved p) < 20) by nra.
  lra.
Qed.

(** X13 for a cloud of particles at [(9.995, 0, 0)]. *)
Lemma collapse_lands_near_origin_witness :
  exists q : Vec3f.t,
    vertices (pointMesh (onAnimate 1 (cloudOf (Vec3f.mk 9.995 0 0)))) !! 0%nat
      = Some q /\
    q = Vec3f.scale (@moved idealFramework (Vec3f.mk 9.995 0 0)) 0.000001 /\
    0.00001 < Vec3f.mag q < 0.00002.
Proof.
  refine (@collapse_lands_near_origin idealFramework ideal_normalize_bound
            (cloudOf (Vec3f.mk 9.995 0 0)) 1 0 (Vec3f.mk 9.995 0 0)
            N_positive (cloudOf_vertex _ 0 N_positive) _ _).
  - unfold withinBounds. cbn [Vec3f.x Vec3f.y Vec3f.z].
    rewrite Rabs_R0. rewrite Rabs_right by lra. lra.
  - left. rewrite ideal_moved_axis by lra. cbn [Vec3f.x].
    rewrite Rabs_right; lra.
Defined.
